(** * The OpenDeck PulseAudio mixer plugin: runtime (plugin.py) and domain
      plugin (main.py), embedded as state-passing functions.

    The Python objects [StreamDeck], [SDPlugin] and [PulsePlugin] share one
    mutable store; it is the record [World] below.  Every method becomes a
    function in the monad [M], which threads the store and may raise: a
    raised exception keeps the mutations made before it, as in Python. *)

From Stdlib Require Import PrimFloat SpecFloat FloatOps FloatAxioms.
From Stdlib Require Import ZArith QArith Lia Bool Ascii String.
From stdpp Require Import gmap strings list.

Open Scope string_scope.
Open Scope Z_scope.
Open Scope list_scope.

Set Warnings "-register-all".

(** ** Values decoded by [json.loads] *)

(** Objects keep their fields in order; a decoded object lists each key
    once.  Numbers are the two Python types [int] and [float]. *)
Inductive json : Type :=
| JNull
| JBool (b : bool)
| JInt (z : Z)
| JFloat (q : Q)
| JStr (s : string)
| JArr (items : list json)
| JObj (fields : list (string * json)).

(** Python truth value: [None], [False], zero, the empty string, list and
    dict are false. *)
Definition truthy (v : json) : bool :=
  match v with
  | JNull => false
  | JBool b => b
  | JInt z => negb (z =? 0)
  | JFloat q => negb (Qnum q =? 0)
  | JStr s => negb (String.eqb s "")
  | JArr l => match l with [] => false | _ => true end
  | JObj f => match f with [] => false | _ => true end
  end.

Fixpoint obj_get (k : string) (f : list (string * json)) : option json :=
  match f with
  | [] => None
  | (k', v) :: f' => if String.eqb k k' then Some v else obj_get k f'
  end.

(** ** Exceptions and the store-and-exception monad *)

Inductive exn : Type :=
| KeyError | TypeError | ValueError | AttributeError | IndexError
| NotImplementedError | JSONDecodeError | OverflowError.

Inductive result (A : Type) : Type :=
| Ok (a : A)
| Raise (e : exn).
Arguments Ok {A} a.
Arguments Raise {A} e.

(** [v[k]] for a string [k]: only a dict can be indexed by a string. *)
Definition subscript (v : json) (k : string) : result json :=
  match v with
  | JObj f => match obj_get k f with Some x => Ok x | None => Raise KeyError end
  | _ => Raise TypeError
  end.

(** [v.get(k)]: only a dict has [get]; an absent key gives [None]. *)
Definition dict_get (v : json) (k : string) : result json :=
  match v with
  | JObj f => Ok (default JNull (obj_get k f))
  | _ => Raise AttributeError
  end.

(** ** Strings.  A string is the sequence of its ASCII characters. *)

(** [c.upper()] for an ASCII character [c]: a lower-case letter loses 32,
    every other ASCII character stays.  Python also changes characters
    outside ASCII (U+017F gives [S]); they are left as they are here, and a
    statement that depends on the case of a letter is made for an ASCII
    letter. *)
Definition upper (c : ascii) : ascii :=
  let n := nat_of_ascii c in
  if ((97 <=? n)%nat && (n <=? 122)%nat)%bool then ascii_of_nat (n - 32) else c.

(** [s.split(".")[-1]]: the text after the last dot. *)
Fixpoint last_segment_from (acc s : string) : string :=
  match s with
  | EmptyString => acc
  | String c r =>
      if Ascii.eqb c "." then last_segment_from EmptyString r
      else last_segment_from (acc +:+ String c EmptyString) r
  end.
Definition last_segment (s : string) : string := last_segment_from EmptyString s.

(** [str.strip()] on an ASCII string: the ASCII characters Python counts as
    white space go from both ends.  Python also strips white space outside
    ASCII (U+00A0, U+0085, U+3000), which an ASCII string does not hold. *)
Definition is_space (c : ascii) : bool :=
  let n := nat_of_ascii c in
  (((9 <=? n)%nat && (n <=? 13)%nat) || ((28 <=? n)%nat && (n <=? 32)%nat))%bool.

Fixpoint lstrip (s : string) : string :=
  match s with
  | EmptyString => EmptyString
  | String c r => if is_space c then lstrip r else s
  end.

Definition strip (s : string) : string :=
  String.rev (lstrip (String.rev (lstrip s))).

(** [needle in hay] on two strings. *)
Fixpoint is_prefix (p s : string) : bool :=
  match p, s with
  | EmptyString, _ => true
  | String a p', String b s' => (Ascii.eqb a b && is_prefix p' s')%bool
  | String _ _, EmptyString => false
  end.

Fixpoint is_substring (p s : string) : bool :=
  (is_prefix p s ||
   match s with
   | EmptyString => false
   | String _ s' => is_substring p s'
   end)%bool.

(** [k in v] for a string [k]: key of a dict, substring of a string, element
    of a list; anything else is not a container. *)
Definition is_str (k : string) (v : json) : bool :=
  match v with JStr s => String.eqb s k | _ => false end.

Definition py_in (k : string) (v : json) : result bool :=
  match v with
  | JObj f => Ok (bool_decide (is_Some (obj_get k f)))
  | JStr s => Ok (is_substring k s)
  | JArr l => Ok (existsb (is_str k) l)
  | _ => Raise TypeError
  end.

(** ** The store *)

(** An audio sink as [pulsectl] describes it.  [volume_percent] is the
    integer [int(sink.volume.value_flat * 100.0)]; the floating-point
    product is taken as computed. *)
Record PulseSinkInfo : Type := {
  index : Z;
  description : string;
  mute : bool;
  volume_percent : Z
}.

(** Calls made on the PulseAudio connection.  The volume is the Python
    [float] handed over, a binary64 number. *)
Inductive pulse_call : Type :=
| VolumeSetAllChans (sink_index : Z) (value : float)
| Mute (sink_index : Z) (flag : bool).

(** Lines written by [logging.error] and [logger.error]; the text of a
    value or of an exception that a line quotes is left out. *)
Inductive log_entry : Type :=
| LogOnLoopError (e : exn)
| LogNoHandler
| LogMessageException (e : exn)
| LogError (text : string).

Record World : Type := {
  (* StreamDeck *)
  running : bool;
  errors : gmap string Z;
  (* SDPlugin *)
  contexts : list string;
  ctxSettings : gmap string json;
  ctxInfo : gmap string json;
  (* PulsePlugin *)
  sinks : list PulseSinkInfo;
  last_devices : gmap string string;
  last_volumes : gmap string Z;
  (* the world outside: frames handed to socket.send, the log, the sound
     server and the calls made on it *)
  sent : list json;
  log : list log_entry;
  pulse_server : list PulseSinkInfo;
  pulse_calls : list pulse_call;
  (* history of the polling loop: each invocation of the refresh hook with
     whether it raised *)
  polled : list (string * bool)
}.

Definition set_running (b : bool) (w : World) : World :=
  {| running := b; errors := errors w; contexts := contexts w;
     ctxSettings := ctxSettings w; ctxInfo := ctxInfo w; sinks := sinks w;
     last_devices := last_devices w; last_volumes := last_volumes w;
     sent := sent w; log := log w; pulse_server := pulse_server w;
     pulse_calls := pulse_calls w; polled := polled w |}.

Definition set_errors (x : gmap string Z) (w : World) : World :=
  {| running := running w; errors := x; contexts := contexts w;
     ctxSettings := ctxSettings w; ctxInfo := ctxInfo w; sinks := sinks w;
     last_devices := last_devices w; last_volumes := last_volumes w;
     sent := sent w; log := log w; pulse_server := pulse_server w;
     pulse_calls := pulse_calls w; polled := polled w |}.

Definition set_contexts (x : list string) (w : World) : World :=
  {| running := running w; errors := errors w; contexts := x;
     ctxSettings := ctxSettings w; ctxInfo := ctxInfo w; sinks := sinks w;
     last_devices := last_devices w; last_volumes := last_volumes w;
     sent := sent w; log := log w; pulse_server := pulse_server w;
     pulse_calls := pulse_calls w; polled := polled w |}.

Definition set_ctxSettings (x : gmap string json) (w : World) : World :=
  {| running := running w; errors := errors w; contexts := contexts w;
     ctxSettings := x; ctxInfo := ctxInfo w; sinks := sinks w;
     last_devices := last_devices w; last_volumes := last_volumes w;
     sent := sent w; log := log w; pulse_server := pulse_server w;
     pulse_calls := pulse_calls w; polled := polled w |}.

Definition set_ctxInfo (x : gmap string json) (w : World) : World :=
  {| running := running w; errors := errors w; contexts := contexts w;
     ctxSettings := ctxSettings w; ctxInfo := x; sinks := sinks w;
     last_devices := last_devices w; last_volumes := last_volumes w;
     sent := sent w; log := log w; pulse_server := pulse_server w;
     pulse_calls := pulse_calls w; polled := polled w |}.

Definition set_sinks (x : list PulseSinkInfo) (w : World) : World :=
  {| running := running w; errors := errors w; contexts := contexts w;
     ctxSettings := ctxSettings w; ctxInfo := ctxInfo w; sinks := x;
     last_devices := last_devices w; last_volumes := last_volumes w;
     sent := sent w; log := log w; pulse_server := pulse_server w;
     pulse_calls := pulse_calls w; polled := polled w |}.

Definition set_last_devices (x : gmap string string) (w : World) : World :=
  {| running := running w; errors := errors w; contexts := contexts w;
     ctxSettings := ctxSettings w; ctxInfo := ctxInfo w; sinks := sinks w;
     last_devices := x; last_volumes := last_volumes w;
     sent := sent w; log := log w; pulse_server := pulse_server w;
     pulse_calls := pulse_calls w; polled := polled w |}.

Definition set_last_volumes (x : gmap string Z) (w : World) : World :=
  {| running := running w; errors := errors w; contexts := contexts w;
     ctxSettings := ctxSettings w; ctxInfo := ctxInfo w; sinks := sinks w;
     last_devices := last_devices w; last_volumes := x;
     sent := sent w; log := log w; pulse_server := pulse_server w;
     pulse_calls := pulse_calls w; polled := polled w |}.

Definition set_sent (x : list json) (w : World) : World :=
  {| running := running w; errors := errors w; contexts := contexts w;
     ctxSettings := ctxSettings w; ctxInfo := ctxInfo w; sinks := sinks w;
     last_devices := last_devices w; last_volumes := last_volumes w;
     sent := x; log := log w; pulse_server := pulse_server w;
     pulse_calls := pulse_calls w; polled := polled w |}.

Definition set_log (x : list log_entry) (w : World) : World :=
  {| running := running w; errors := errors w; contexts := contexts w;
     ctxSettings := ctxSettings w; ctxInfo := ctxInfo w; sinks := sinks w;
     last_devices := last_devices w; last_volumes := last_volumes w;
     sent := sent w; log := x; pulse_server := pulse_server w;
     pulse_calls := pulse_calls w; polled := polled w |}.

Definition set_pulse_calls (x : list pulse_call) (w : World) : World :=
  {| running := running w; errors := errors w; contexts := contexts w;
     ctxSettings := ctxSettings w; ctxInfo := ctxInfo w; sinks := sinks w;
     last_devices := last_devices w; last_volumes := last_volumes w;
     sent := sent w; log := log w; pulse_server := pulse_server w;
     pulse_calls := x; polled := polled w |}.

Definition set_polled (x : list (string * bool)) (w : World) : World :=
  {| running := running w; errors := errors w; contexts := contexts w;
     ctxSettings := ctxSettings w; ctxInfo := ctxInfo w; sinks := sinks w;
     last_devices := last_devices w; last_volumes := last_volumes w;
     sent := sent w; log := log w; pulse_server := pulse_server w;
     pulse_calls := pulse_calls w; polled := x |}.

(** Computations over the store that may raise. *)
Definition M (A : Type) : Type := World -> result A * World.

Definition ret {A} (a : A) : M A := fun w => (Ok a, w).
Definition raise {A} (e : exn) : M A := fun w => (Raise e, w).
Definition bind {A B} (m : M A) (k : A -> M B) : M B :=
  fun w => match m w with
           | (Ok a, w') => k a w'
           | (Raise e, w') => (Raise e, w')
           end.
Definition lift {A} (r : result A) : M A := fun w => (r, w).
Definition modify (f : World -> World) : M unit := fun w => (Ok tt, f w).
Definition gets {A} (f : World -> A) : M A := fun w => (Ok (f w), w).

Notation "'let*' x ':=' m 'in' k" := (bind m (fun x => k))
  (at level 10, x name, m at level 100, k at level 200).
Notation "'do' m 'then' k" := (bind m (fun _ => k))
  (at level 10, m at level 100, k at level 200).

(** ** Outbound commands (SDPlugin, "Request/Send ... to the Stream Deck API") *)

(** [self.sd.socket.send(json.dumps(payload))]: the frame joins the frames
    handed to the transport, which is fire-and-forget. *)
Definition send (payload : json) : M unit :=
  modify (fun w => set_sent (sent w ++ [payload]) w).

Definition GetSettings (context : string) : M unit :=
  send (JObj [("context", JStr context); ("event", JStr "getSettings")]).

Definition GetGlobalSettings (context : string) : M unit :=
  send (JObj [("context", JStr context); ("event", JStr "getGlobalSettings")]).

Definition GetResources (context : string) : M unit :=
  send (JObj [("context", JStr context); ("event", JStr "getResources")]).

Definition GetSecrets (context : string) : M unit :=
  send (JObj [("context", JStr context); ("event", JStr "getSecrets")]).

Definition LogMessage (msg : string) : M unit :=
  send (JObj [("event", JStr "logMessage");
              ("payload", JObj [("message", JStr msg)])]).

Definition OpenUrl (url : string) : M unit :=
  send (JObj [("event", JStr "openUrl"); ("payload", JObj [("url", JStr url)])]).

Definition SendToPropertyInspector (context : string) (data : json) : M unit :=
  send (JObj [("event", JStr "sendToPropertyInspector");
              ("context", JStr context); ("payload", data)]).

Definition SetGlobalSettings (context : string) (data : json) : M unit :=
  send (JObj [("event", JStr "setGlobalSettings");
              ("context", JStr context); ("payload", data)]).

Definition SetSettings (context : string) (data : json) : M unit :=
  send (JObj [("event", JStr "setSettings");
              ("context", JStr context); ("payload", data)]).

Definition SetFeedback (context : string) (data : json) : M unit :=
  raise NotImplementedError.

Definition SetFeedbackLayout (context layout : string) : M unit :=
  send (JObj [("event", JStr "setFeedbackLayout"); ("context", JStr context);
              ("payload", JObj [("layout", JStr layout)])]).

Definition SetImage (context : string) (image state target : json) : M unit :=
  send (JObj [("context", JStr context); ("event", JStr "setImage");
              ("payload", JObj [("image", image); ("state", state);
                                ("target", target)])]).

Definition SetResources (context : string) (data : json) : M unit :=
  send (JObj [("event", JStr "setResources");
              ("context", JStr context); ("payload", data)]).

Definition SetState (context : string) (state : Z) : M unit :=
  if ((state <? 0) || (state >? 1))%bool then raise ValueError
  else send (JObj [("event", JStr "setState"); ("context", JStr context);
                   ("payload", JObj [("state", JInt state)])]).

Definition SetTitle (context : string) (title state target : json) : M unit :=
  send (JObj [("event", JStr "setTitle"); ("context", JStr context);
              ("payload", JObj [("title", title); ("state", state);
                                ("target", target)])]).

Definition SetTriggerDescription (context : string)
    (longTouch push rotate touch : json) : M unit :=
  send (JObj [("event", JStr "setTriggerDescription"); ("context", JStr context);
              ("payload", JObj [("longTouch", longTouch); ("push", push);
                                ("rotate", rotate); ("touch", touch)])]).

Definition showAlert_message (context : string) : json :=
  JObj [("event", JStr "showAlert"); ("context", JStr context)].

Definition ShowAlert (context : string) : M unit :=
  send (showAlert_message context).

Definition ShowOk (context : string) : M unit :=
  send (JObj [("event", JStr "showOk"); ("context", JStr context)]).

Definition SwitchToProfile (context device : string) (page profile : json)
    : M unit :=
  send (JObj [("context", JStr context); ("device", JStr device);
              ("event", JStr "switchToProfile");
              ("payload", JObj [("page", page); ("profile", profile)])]).

(** ** The instance store (SDPlugin.setSettings / removeSettings) *)

(** Contexts are strings, as the annotations [context: str] say and as the
    host sends them; the store is keyed by strings.  A frame whose
    ["context"] is not a string is not a frame of the protocol and has no
    counterpart in this store: in its place the embedding raises
    [TypeError] where the context is read, which is not what Python does
    with a number or a list there.  The statements about a frame's context
    are made for a string context. *)
Definition payload_context (payload : json) : M string :=
  let* c := lift (subscript payload "context") in
  match c with
  | JStr s => ret s
  | _ => raise TypeError
  end.

Definition member (c : string) (l : list string) : bool :=
  existsb (String.eqb c) l.

(** [l.pop(l.index(c))]: the first occurrence goes. *)
Fixpoint remove_first (c : string) (l : list string) : list string :=
  match l with
  | [] => []
  | x :: l' => if String.eqb c x then l' else x :: remove_first c l'
  end.

(** [if context not in self.contexts: self.contexts.append(context)] *)
Definition upsert (c : string) (w : World) : World :=
  if member c (contexts w) then w else set_contexts (contexts w ++ [c]) w.
Arguments upsert : simpl never.

Definition setSettings (payload : json) : M unit :=
  let* context := payload_context payload in
  do modify (upsert context) then
  let* inner := lift (subscript payload "payload") in
  let* settings := lift (subscript inner "settings") in
  do modify (fun w => set_ctxSettings (<[context := settings]> (ctxSettings w)) w) then
  let* inner := lift (subscript payload "payload") in
  let* coordinates := lift (subscript inner "coordinates") in
  let* inner := lift (subscript payload "payload") in
  let* controller := lift (subscript inner "controller") in
  let* inner := lift (subscript payload "payload") in
  let* state := lift (subscript inner "state") in
  let* inner := lift (subscript payload "payload") in
  let* isInMultiAction := lift (subscript inner "isInMultiAction") in
  let* action := lift (subscript payload "action") in
  modify (fun w => set_ctxInfo
            (<[context := JObj [("coordinates", coordinates);
                                ("controller", controller);
                                ("state", state);
                                ("isInMultiAction", isInMultiAction);
                                ("action", action)]]> (ctxInfo w)) w).

Definition removeSettings (payload : json) : M unit :=
  let* context := payload_context payload in
  let* present := gets (fun w => member context (contexts w)) in
  do (if present : bool
      then modify (fun w => set_contexts (remove_first context (contexts w)) w)
      else raise ValueError) then
  let* s := gets (fun w => ctxSettings w !! context) in
  do match s with
     | Some _ => modify (fun w => set_ctxSettings (delete context (ctxSettings w)) w)
     | None => raise KeyError
     end then
  let* i := gets (fun w => ctxInfo w !! context) in
  match i with
  | Some _ => modify (fun w => set_ctxInfo (delete context (ctxInfo w)) w)
  | None => raise KeyError
  end.

(** ** The domain plugin (main.py, class PulsePlugin) *)

Definition get_sink (idx : Z) (w : World) : option PulseSinkInfo :=
  find (fun s => index s =? idx) (sinks w).

(** [s.description == name], where [name] is any decoded value. *)
Definition get_sink_from_name (name : json) (w : World) : option PulseSinkInfo :=
  find (fun s => is_str (description s) name) (sinks w).

Definition get_volume (idx : Z) (w : World) : option Z :=
  match get_sink idx w with
  | Some sink => Some (volume_percent sink)
  | None => None
  end.

(** A Python number: the callers of [set_volume] pass an [int], its
    signature asks for a [float]. *)
Inductive number : Type :=
| NInt (z : Z)
| NFloat (f : float).

(** [float(z)]: the nearest binary64 number, ties to even; an integer that
    rounds beyond the largest one raises [OverflowError]. *)
Definition int_to_float (z : Z) : result float :=
  match binary_normalize prec emax z 0 false with
  | S754_infinity _ => Raise OverflowError
  | sf => Ok (SF2Prim sf)
  end.

(** [int(f)]: the integer part, towards zero; there is none for a
    not-a-number or an infinity. *)
Definition float_to_int (f : float) : result Z :=
  match Prim2SF f with
  | S754_zero _ => Ok 0
  | S754_finite s m e =>
      let n := if 0 <=? e then Z.pos m * 2 ^ e else Z.pos m / 2 ^ (- e) in
      Ok (if s : bool then - n else n)
  | S754_infinity _ => Raise OverflowError
  | S754_nan => Raise ValueError
  end.

(** [max(0.0, min(1.0, v))] for a float [v]: [min] keeps [1.0] unless
    [v < 1.0], [max] keeps [0.0] unless the result is above it. *)
Definition clamp (v : float) : float :=
  let m := if (v <? 1)%float then v else 1%float in
  if (0 <? m)%float then m else 0%float.

(** The value [set_volume] hands to the library:
    [if volume > 1.0: volume = volume / 100.0] and then
    [max(0.0, min(1.0, volume))].  Python compares an [int] with a float
    exactly and converts it for the division.  An [int] that is not above
    [1.0] is not converted: [min] keeps [1.0] for 1 and gives the [int]
    below it, and [max] then keeps [0.0], no [int] below 1 being above
    it. *)
Definition volume_value (volume : number) : result float :=
  match volume with
  | NFloat f => Ok (clamp (if (1 <? f)%float then (f / 100)%float else f))
  | NInt z =>
      if 1 <? z then
        match int_to_float z with
        | Ok f => Ok (clamp (f / 100)%float)
        | Raise e => Raise e
        end
      else Ok (if z <? 1 then 0%float else 1%float)
  end.

(** The percent a sink reports once its volume is [value]:
    [int(value * 100.0)].  The library stores the value for each channel of
    the sink and reports their mean, taken here to be the value.  The
    values written lie between [0.0] and [1.0], where the product is
    finite. *)
Definition percent_of (value : float) : Z :=
  match float_to_int (value * 100)%float with
  | Ok z => z
  | Raise _ => 0
  end.

Definition with_volume (value : float) (s : PulseSinkInfo) : PulseSinkInfo :=
  {| index := index s; description := description s; mute := mute s;
     volume_percent := percent_of value |}.

Definition with_mute (flag : bool) (s : PulseSinkInfo) : PulseSinkInfo :=
  {| index := index s; description := description s; mute := flag;
     volume_percent := volume_percent s |}.

(** The library writes what it sets into the sink object it is given, and
    that object is the one [get_sink] found in [self.sinks]: the first
    sink of the list with the index.  The others stay. *)
Fixpoint write_sink (idx : Z) (f : PulseSinkInfo -> PulseSinkInfo)
    (l : list PulseSinkInfo) : list PulseSinkInfo :=
  match l with
  | [] => []
  | s :: l' => if index s =? idx then f s :: l' else s :: write_sink idx f l'
  end.

(** [pulse.volume_set_all_chans(sink, value)]: the call, and the value in
    the sink object. *)
Definition volume_set_all_chans (sink : PulseSinkInfo) (value : float) : M unit :=
  modify (fun w => set_sinks (write_sink (index sink) (with_volume value) (sinks w))
                     (set_pulse_calls
                        (pulse_calls w ++ [VolumeSetAllChans (index sink) value]) w)).

(** [pulse.mute(sink, flag)]: the call, and the flag in the sink object. *)
Definition pulse_mute (sink : PulseSinkInfo) (flag : bool) : M unit :=
  modify (fun w => set_sinks (write_sink (index sink) (with_mute flag) (sinks w))
                     (set_pulse_calls
                        (pulse_calls w ++ [Mute (index sink) flag]) w)).

Definition set_volume (idx : Z) (volume : number) : M bool :=
  let* sink := gets (get_sink idx) in
  match sink with
  | Some sk =>
      let* value := lift (volume_value volume) in
      do volume_set_all_chans sk value then
      ret true
  | None => ret false
  end.

Definition refresh : M unit :=
  modify (fun w => set_sinks (pulse_server w) w).

Definition toggle_mute (idx : Z) : M unit :=
  let* sink := gets (get_sink idx) in
  match sink with
  | Some sk => if mute sk then pulse_mute sk false else pulse_mute sk true
  | None => ret tt
  end.

Definition logger_error (text : string) : M unit :=
  modify (fun w => set_log (log w ++ [LogError text]) w).

(** [v.split(".")[-1]]: only a string has [split]. *)
Definition action_suffix (v : json) : result string :=
  match v with
  | JStr s => Ok (last_segment s)
  | _ => Raise AttributeError
  end.

(** [(nickname.strip() if nickname else None) or sink.description] *)
Definition display_name (nickname : json) (sink : PulseSinkInfo) : result string :=
  if truthy nickname then
    match nickname with
    | JStr s => let t := strip s in
                Ok (if String.eqb t "" then description sink else t)
    | _ => Raise AttributeError
    end
  else Ok (description sink).

Section Rendering.

(** [show_sink_info(volume, name)] draws the button image with PIL and
    returns it as a data URL; the drawing is left to the library. *)
Variable show_sink_info : Z -> string -> string.

Definition PulsePlugin_on_loop (context : string) : M unit :=
  let* settings := gets (fun w => ctxSettings w !! context) in
  let* info := gets (fun w => ctxInfo w !! context) in
  match settings, info with
  | Some settings, Some info =>
      if (negb (truthy settings) || negb (truthy info))%bool then ret tt else
      let* a := lift (subscript info "action") in
      let* action := lift (action_suffix a) in
      if String.eqb action "showvol" then
        let* device := lift (dict_get settings "audioDevice") in
        if negb (truthy device) then ret tt else
        let* sink := gets (get_sink_from_name device) in
        match sink with
        | None => logger_error "Could not find sink"
        | Some sink =>
            let volume := volume_percent sink in
            let* nickname := lift (dict_get settings "deviceNickname") in
            let* nickname := lift (display_name nickname sink) in
            let volume := if mute sink then 0 else volume in
            do modify (fun w => match last_devices w !! context with
                                | Some _ => w
                                | None => set_last_devices
                                            (<[context := nickname]> (last_devices w)) w
                                end) then
            do modify (fun w => match last_volumes w !! context with
                                | Some _ => w
                                | None => set_last_volumes
                                            (<[context := volume]> (last_volumes w)) w
                                end) then
            let* d := gets (fun w => last_devices w !! context) in
            let* v := gets (fun w => last_volumes w !! context) in
            if bool_decide (d = Some nickname ∧ v = Some volume) then ret tt else
            let img := show_sink_info volume nickname in
            do SetImage context (JStr img) JNull JNull then
            do modify (fun w => set_last_devices
                                  (<[context := nickname]> (last_devices w)) w) then
            modify (fun w => set_last_volumes
                               (<[context := volume]> (last_volumes w)) w)
        end
      else ret tt
  | _, _ => ret tt
  end.

End Rendering.

Definition get_settings (context : string) : M unit :=
  do refresh then
  let* options := gets (fun w => map (fun s => JStr (description s)) (sinks w)) in
  do modify (fun w => match ctxSettings w !! context with
                      | Some _ => w
                      | None => set_ctxSettings
                                  (<[context := JObj []]> (ctxSettings w)) w
                      end) then
  let* cur := gets (fun w => default JNull (ctxSettings w !! context)) in
  let* has := lift (py_in "audioDevice" cur) in
  let* value := (if has : bool then lift (subscript cur "audioDevice")
                 else ret JNull) in
  let dropdown :=
    JObj [("type", JStr "dropdown"); ("name", JStr "audioDevice");
          ("label", JStr "Audio Sinks"); ("value", value);
          ("options", JArr options)] in
  let* info := gets (fun w => default JNull (ctxInfo w !! context)) in
  let* fields :=
    (if truthy info then
       let* a := lift (subscript info "action") in
       let* action := lift (action_suffix a) in
       if String.eqb action "showvol" then
         let* settings_ctx := gets (fun w => default JNull (ctxSettings w !! context)) in
         let* nickname := lift (dict_get settings_ctx "deviceNickname") in
         ret [dropdown;
              JObj [("type", JStr "text"); ("name", JStr "deviceNickname");
                    ("label", JStr "Device Nickname"); ("value", nickname)]]
       else ret [dropdown]
     else ret [dropdown]) in
  send (JObj [("context", JStr context);
              ("event", JStr "sendToPropertyInspector");
              ("payload", JObj [("event", JStr "getSettingsFields");
                                ("settingsFields", JArr fields)])]).

Definition PulsePlugin_onSendToPlugin (payload : json) : M unit :=
  let* context := payload_context payload in
  get_settings context.

Definition PulsePlugin_onPropertyInspectorDidAppear (payload : json) : M unit :=
  let* context := payload_context payload in
  get_settings context.

Definition PulsePlugin_onKeyUp (payload : json) : M unit :=
  let* a := lift (subscript payload "action") in
  let* action := lift (action_suffix a) in
  let* context := payload_context payload in
  let* settings := gets (fun w => default JNull (ctxSettings w !! context)) in
  if negb (truthy settings) then
    do logger_error "Device not set up. Please go to the settings for the button and configure the audio device." then
    ShowAlert context
  else
  let* device := lift (dict_get settings "audioDevice") in
  if negb (truthy device) then
    do logger_error "Audio device not set up. Please go to the settings for the audio device." then
    ShowAlert context
  else
  let* sink := gets (get_sink_from_name device) in
  match sink with
  | None => do logger_error "No sink found for device" then ShowAlert context
  | Some sink =>
      if String.eqb action "volup" then
        let* current := gets (get_volume (index sink)) in
        match current with
        | Some c => let* _ := set_volume (index sink) (NInt (c + 5)) in ret tt
        | None => ret tt
        end
      else if String.eqb action "voldown" then
        let* current := gets (get_volume (index sink)) in
        match current with
        | Some c => let* _ := set_volume (index sink) (NInt (c - 5)) in ret tt
        | None => ret tt
        end
      else if String.eqb action "mute" then toggle_mute (index sink)
      else if String.eqb action "showvol" then toggle_mute (index sink)
      else ret tt
  end.

(** ** Plugin classes and their handlers *)

(** The runtime is used through a plugin object: the base class [SDPlugin],
    whose hooks all pass, or its subclass [PulsePlugin]. *)
Inductive plugin_class : Type := SDPlugin | PulsePlugin.

(** The attributes of a plugin object whose name starts with [on]: the
    event handlers of the WebSocket API, and the refresh hook [on_loop]. *)
Inductive handler : Type :=
| H_onDidReceiveSettings | H_onDidReceiveGlobalSettings
| H_onWillAppear | H_onWillDisappear
| H_onSendToPlugin | H_onApplicationDidLaunch | H_onApplicationDidTerminate
| H_onDeviceDidChange | H_onDeviceDidConnect | H_onDeviceDidDisconnect
| H_onDialDown | H_onDialRotate | H_onDialUp
| H_onDidReceiveDeepLink | H_onDidReceivePropertyInspectorMessage
| H_onDidReceiveResources | H_onDidReceiveSecrets
| H_onKeyDown | H_onKeyUp
| H_onPropertyInspectorDidAppear | H_onPropertyInspectorDidDisappear
| H_onSystemDidWakeUp | H_onTitleParametersDidChange | H_onTouchTap
| H_on_loop.

(** The event handlers, by name. *)
Definition event_handlers : list (string * handler) :=
  [("onDidReceiveSettings", H_onDidReceiveSettings);
   ("onDidReceiveGlobalSettings", H_onDidReceiveGlobalSettings);
   ("onWillAppear", H_onWillAppear);
   ("onWillDisappear", H_onWillDisappear);
   ("onSendToPlugin", H_onSendToPlugin);
   ("onApplicationDidLaunch", H_onApplicationDidLaunch);
   ("onApplicationDidTerminate", H_onApplicationDidTerminate);
   ("onDeviceDidChange", H_onDeviceDidChange);
   ("onDeviceDidConnect", H_onDeviceDidConnect);
   ("onDeviceDidDisconnect", H_onDeviceDidDisconnect);
   ("onDialDown", H_onDialDown);
   ("onDialRotate", H_onDialRotate);
   ("onDialUp", H_onDialUp);
   ("onDidReceiveDeepLink", H_onDidReceiveDeepLink);
   ("onDidReceivePropertyInspectorMessage", H_onDidReceivePropertyInspectorMessage);
   ("onDidReceiveResources", H_onDidReceiveResources);
   ("onDidReceiveSecrets", H_onDidReceiveSecrets);
   ("onKeyDown", H_onKeyDown);
   ("onKeyUp", H_onKeyUp);
   ("onPropertyInspectorDidAppear", H_onPropertyInspectorDidAppear);
   ("onPropertyInspectorDidDisappear", H_onPropertyInspectorDidDisappear);
   ("onSystemDidWakeUp", H_onSystemDidWakeUp);
   ("onTitleParametersDidChange", H_onTitleParametersDidChange);
   ("onTouchTap", H_onTouchTap)].

Fixpoint assoc {A} (k : string) (l : list (string * A)) : option A :=
  match l with
  | [] => None
  | (k', v) :: l' => if String.eqb k k' then Some v else assoc k l'
  end.

(** The fixed table of recognized event handlers. *)
Definition handler_table (name : string) : option handler :=
  assoc name event_handlers.

(** [getattr(self.plugin, name, None)] for a name that starts with [on]:
    every attribute of the object is in reach, [on_loop] among them. *)
Definition getattr (name : string) : option handler :=
  assoc name (event_handlers ++ [("on_loop", H_on_loop)]).

(** [handler(parsed)]: the call of a bound method with one argument.
    [onSystemDidWakeUp] takes none, so the call raises [TypeError].
    [on_loop] receives the frame, a dict, as its context: the base hook
    passes, and the subclass raises [TypeError] when it looks up the
    unhashable dict in [ctxSettings]. *)
Definition call_with_payload (cls : plugin_class) (h : handler)
    (parsed : json) : M unit :=
  match h with
  | H_onDidReceiveSettings => setSettings parsed
  | H_onWillAppear => setSettings parsed
  | H_onWillDisappear => removeSettings parsed
  | H_onSendToPlugin =>
      match cls with
      | SDPlugin => ret tt
      | PulsePlugin => PulsePlugin_onSendToPlugin parsed
      end
  | H_onPropertyInspectorDidAppear =>
      match cls with
      | SDPlugin => ret tt
      | PulsePlugin => PulsePlugin_onPropertyInspectorDidAppear parsed
      end
  | H_onKeyUp =>
      match cls with
      | SDPlugin => ret tt
      | PulsePlugin => PulsePlugin_onKeyUp parsed
      end
  | H_onSystemDidWakeUp => raise TypeError
  | H_on_loop =>
      match cls with
      | SDPlugin => ret tt
      | PulsePlugin => raise TypeError
      end
  | _ => ret tt
  end.

(** [handler()]: the call with no argument.  Only [onSystemDidWakeUp] is
    ever called so. *)
Definition call_without_payload (h : handler) : M unit :=
  match h with
  | H_onSystemDidWakeUp => ret tt
  | _ => raise TypeError
  end.

(** ** The event router (StreamDeck.on_message) *)

(** The text [f"on{event[0].upper()}{event[1:]}"].  For a list [event]
    whose head is a string, the text ends with the [repr] of a list; it is
    kept symbolic, since no attribute name holds a bracket. *)
Inductive method_text : Type :=
| Name (s : string)
| NameWithListRepr (head : string) (rest : list json).

Definition method_name (event : json) : result method_text :=
  match event with
  | JStr EmptyString => Raise IndexError
  | JStr (String c rest) => Ok (Name ("on" +:+ String (upper c) rest))
  | JArr [] => Raise IndexError
  | JArr (JStr s :: rest) => Ok (NameWithListRepr s rest)
  | JArr (_ :: _) => Raise AttributeError
  | JObj _ => Raise KeyError
  | _ => Raise TypeError
  end.

Definition resolve (t : method_text) : option handler :=
  match t with
  | Name s => getattr s
  | NameWithListRepr _ _ => None
  end.

Definition logging_no_handler : M unit :=
  modify (fun w => set_log (log w ++ [LogNoHandler]) w).

(** The body of the [try] once [json.loads] has returned [parsed]. *)
Definition route (cls : plugin_class) (parsed : json) : M unit :=
  match parsed with
  | JObj fields =>
      let event := default JNull (obj_get "event" fields) in
      let* name := lift (method_name event) in
      match resolve name with
      | Some h =>
          if is_str "systemDidWakeUp" event then call_without_payload h
          else call_with_payload cls h parsed
      | None => logging_no_handler
      end
  | _ => ret tt
  end.

(** [except Exception as e: logging.error(...)]: the exception ends here. *)
Definition catch_and_log (m : M unit) : M unit :=
  fun w => match m w with
           | (Ok _, w') => (Ok tt, w')
           | (Raise e, w') => (Ok tt, set_log (log w' ++ [LogMessageException e]) w')
           end.

(** [on_message] as a function of what [json.loads] makes of the frame:
    [None] when it raises.  The raw [on_message_handler] is [None], as
    [__init__] sets it and nothing in the program changes it. *)
Definition receive (cls : plugin_class) (loaded : option json) : M unit :=
  catch_and_log
    (let* parsed := lift (match loaded with
                          | Some v => Ok v
                          | None => Raise JSONDecodeError
                          end) in
     route cls parsed).

Section Transport.

(** [json.loads], the decoder of the standard library. *)
Variable json_loads : string -> option json.

(** The raw message hook [self.on_message_handler], when set. *)
Variable on_message_handler : option (string -> M unit).

Definition on_message (cls : plugin_class) (msg : string) : M unit :=
  catch_and_log
    (do match on_message_handler with
        | Some h => h msg
        | None => ret tt
        end then
     let* parsed := lift (match json_loads msg with
                          | Some v => Ok v
                          | None => Raise JSONDecodeError
                          end) in
     route cls parsed).

End Transport.

(** [on_close]: the connection is gone and the polling loop is told to stop. *)
Definition on_close : M unit := modify (set_running false).

(** [register], sent by [on_open]. *)
Definition register (event uuid : string) : M unit :=
  send (JObj [("event", JStr event); ("uuid", JStr uuid)]).

Definition on_open (event uuid : string) : M unit := register event uuid.

(** ** The polling loop (StreamDeck.image_loop) *)

Definition MAX_ERRORS : Z := 5.

Section Polling.

Variable show_sink_info : Z -> string -> string.

(** [self.plugin.on_loop(ctx)], resolved by the class of the plugin. *)
Definition on_loop (cls : plugin_class) (context : string) : M unit :=
  match cls with
  | SDPlugin => ret tt
  | PulsePlugin => PulsePlugin_on_loop show_sink_info context
  end.

Definition note_poll (ctx : string) (raised : bool) (w : World) : World :=
  set_polled (polled w ++ [(ctx, raised)]) w.

(** The [except] branch of the loop body; the result tells whether the
    [for] loop is left by [break]. *)
Definition on_loop_failed (ctx : string) (e : exn) (w : World) : World * bool :=
  let w := match errors w !! ctx with
           | Some _ => w
           | None => set_errors (<[ctx := 0]> (errors w)) w
           end in
  let w := set_errors (<[ctx := default 0 (errors w !! ctx) + 1]> (errors w)) w in
  let w := set_log (log w ++ [LogOnLoopError e]) w in
  if MAX_ERRORS <=? default 0 (errors w !! ctx) then
    (set_running false (snd (ShowAlert ctx w)), true)
  else (w, false).

(** One pass through the body of the [for] loop. *)
Definition poll_one (cls : plugin_class) (ctx : string) (w : World)
    : World * bool :=
  match on_loop cls ctx w with
  | (Ok _, w') => (note_poll ctx false w', false)
  | (Raise e, w') => on_loop_failed ctx e (note_poll ctx true w')
  end.

(** [for ctx in self.plugin.contexts].  The hook leaves [contexts] as it is
    ([on_loop_contexts] below), so the loop runs over the list as it stands
    when the tick starts. *)
Fixpoint for_contexts (cls : plugin_class) (l : list string) (w : World)
    : World :=
  match l with
  | [] => w
  | ctx :: l' =>
      let (w', stop) := poll_one cls ctx w in
      if stop then w' else for_contexts cls l' w'
  end.

(** One turn of [while self.running]; the wait of 0.2 s has no effect on
    the store. *)
Definition tick (cls : plugin_class) (w : World) : World :=
  for_contexts cls (contexts w) w.

(** [image_loop], for at most [fuel] turns: [Some w] when the loop has
    ended in [w], [None] when it is still running. *)
Fixpoint image_loop (cls : plugin_class) (fuel : nat) (w : World)
    : option World :=
  if running w then
    match fuel with
    | O => None
    | S n => image_loop cls n (tick cls w)
    end
  else Some w.

End Polling.

(** ** The life of the process *)

(** The store after [PulsePlugin.__init__], which ends with [refresh()];
    [server] is what the sound server lists. *)
Definition init (server : list PulseSinkInfo) : World :=
  {| running := false; errors := ∅; contexts := []; ctxSettings := ∅;
     ctxInfo := ∅; sinks := server; last_devices := ∅; last_volumes := ∅;
     sent := []; log := []; pulse_server := server; pulse_calls := [];
     polled := [] |}.

(** [run()]: the flag is raised, and the loop thread and the socket start. *)
Definition run (w : World) : World := set_running true w.

Definition set_pulse_server (x : list PulseSinkInfo) (w : World) : World :=
  {| running := running w; errors := errors w; contexts := contexts w;
     ctxSettings := ctxSettings w; ctxInfo := ctxInfo w; sinks := sinks w;
     last_devices := last_devices w; last_volumes := last_volumes w;
     sent := sent w; log := log w; pulse_server := x;
     pulse_calls := pulse_calls w; polled := polled w |}.

(** The stores the running program passes through: frames arrive, the loop
    ticks while the flag is up, the connection opens and closes, and the
    sound server changes on its own.  A frame is handled and a tick is run
    as a whole: the interleaving of the two threads inside one of them is
    not part of this development.  [accept] says which outcomes of
    [json.loads] the host may deliver. *)
Inductive reachable_by (show_sink_info : Z -> string -> string)
    (accept : option json -> Prop) (cls : plugin_class) : World -> Prop :=
| reach_run server :
    reachable_by show_sink_info accept cls (run (init server))
| reach_open w event uuid :
    reachable_by show_sink_info accept cls w ->
    reachable_by show_sink_info accept cls (snd (on_open event uuid w))
| reach_receive w loaded :
    reachable_by show_sink_info accept cls w ->
    accept loaded ->
    reachable_by show_sink_info accept cls (snd (receive cls loaded w))
| reach_tick w :
    reachable_by show_sink_info accept cls w ->
    running w = true ->
    reachable_by show_sink_info accept cls (tick show_sink_info cls w)
| reach_close w :
    reachable_by show_sink_info accept cls w ->
    reachable_by show_sink_info accept cls (snd (on_close w))
| reach_server w server :
    reachable_by show_sink_info accept cls w ->
    reachable_by show_sink_info accept cls (set_pulse_server server w).

Definition reachable (show_sink_info : Z -> string -> string)
    (cls : plugin_class) : World -> Prop :=
  reachable_by show_sink_info (fun _ => True) cls.

(** The count of failed refreshes of a context, 0 when there is none. *)
Definition error_count (w : World) (ctx : string) : Z :=
  default 0 (errors w !! ctx).

(** * Properties *)

(** ** Reading the store after an update *)

(** Projections of updated stores, and nothing else, are computed. *)
Ltac store_simpl :=
  cbn [running errors contexts ctxSettings ctxInfo sinks last_devices
       last_volumes sent log pulse_server pulse_calls polled
       set_running set_errors set_contexts set_ctxSettings set_ctxInfo
       set_sinks set_last_devices set_last_volumes set_sent set_log
       set_pulse_calls set_polled set_pulse_server note_poll fst snd] in *.

Ltac run_monad :=
  unfold bind, lift, gets, modify, ret, raise, send in *; simpl in *.

(** Two contexts of a list are told apart by [member] as by [∈]. *)
Lemma member_spec (c : string) (l : list string) :
  member c l = true ↔ c ∈ l.
Proof.
  unfold member. rewrite existsb_exists. split.
  - intros (x & Hin & Heq). apply String.eqb_eq in Heq. subst.
    by apply list_elem_of_In.
  - intros Hin. exists c. split; [by apply list_elem_of_In|apply String.eqb_refl].
Qed.

Lemma member_false (c : string) (l : list string) :
  member c l = false ↔ c ∉ l.
Proof.
  rewrite <- member_spec. destruct (member c l); split; try done.
  all: intros H; by destruct H.
Qed.

(** ** The set-state command *)

(** C7.  [SetState] with a state below 0 or above 1 raises [ValueError] and
    leaves the store, and so the frames sent, as they were; with state 0 or
    1 it returns and has sent one frame more: the object with event
    [setState], the context, and the payload whose only field [state] is
    the state. *)
Theorem SetState_validates (context : string) (state : Z) (w : World) :
  ((state < 0 ∨ 1 < state) →
     SetState context state w = (Raise ValueError, w)) ∧
  ((state = 0 ∨ state = 1) →
     SetState context state w =
       (Ok tt,
        set_sent (sent w ++
                  [JObj [("event", JStr "setState"); ("context", JStr context);
                         ("payload", JObj [("state", JInt state)])]]) w)).
Proof.
  unfold SetState. split.
  - intros H.
    assert (((state <? 0) || (state >? 1))%bool = true) as ->; [|done].
    apply orb_true_iff. destruct H; [left; lia|right; lia].
  - intros [-> | ->]; reflexivity.
Qed.

Lemma SetState_validates_witness :
  SetState "ABC123" 2 (init []) = (Raise ValueError, init []) ∧
  SetState "ABC123" 1 (init []) =
    (Ok tt,
     set_sent [JObj [("event", JStr "setState"); ("context", JStr "ABC123");
                     ("payload", JObj [("state", JInt 1)])]] (init [])).
Proof.
  split.
  - apply (SetState_validates "ABC123" 2 (init [])). right. lia.
  - apply (SetState_validates "ABC123" 1 (init [])). right. reflexivity.
Defined.

(** ** The refresh hook *)

Section Hook.

Variable show_sink_info : Z -> string -> string.

(** C10.  For a context without settings or without info, [on_loop]
    returns and the store is the one it was called in: nothing is sent and
    nothing is changed.  The polling loop then counts a successful refresh
    and goes on. *)
Theorem on_loop_absent_entry (cls : plugin_class) (context : string) (w : World) :
  ctxSettings w !! context = None ∨ ctxInfo w !! context = None →
  on_loop show_sink_info cls context w = (Ok tt, w) ∧
  poll_one show_sink_info cls context w = (note_poll context false w, false).
Proof.
  intros H.
  assert (on_loop show_sink_info cls context w = (Ok tt, w)) as Hl.
  { destruct cls; [reflexivity|].
    unfold on_loop, PulsePlugin_on_loop. run_monad.
    destruct H as [-> | ->]; [done|]. by destruct (ctxSettings w !! context). }
  split; [done|]. unfold poll_one. by rewrite Hl.
Qed.

End Hook.

Lemma on_loop_absent_entry_witness :
  on_loop (fun _ _ => "") PulsePlugin "X1" (init []) = (Ok tt, init []) ∧
  poll_one (fun _ _ => "") PulsePlugin "X1" (init []) =
    (note_poll "X1" false (init []), false).
Proof.
  apply (on_loop_absent_entry (fun _ _ => "") PulsePlugin "X1" (init [])).
  left. reflexivity.
Defined.

(** ** What each operation leaves alone *)

(** A computation keeps a relation between the store it starts in and the
    store it ends in, whether it returns or raises. *)
Definition preserves {A} (R : relation World) (m : M A) : Prop :=
  ∀ w, R w (snd (m w)).

Section Preserves.

Context (R : relation World) `{!PreOrder R}.

Lemma preserves_ret {A} (a : A) : preserves R (ret a).
Proof. intros w. reflexivity. Qed.

Lemma preserves_raise {A} (e : exn) : preserves R (@raise A e).
Proof. intros w. reflexivity. Qed.

Lemma preserves_lift {A} (r : result A) : preserves R (lift r).
Proof. intros w. reflexivity. Qed.

Lemma preserves_gets {A} (f : World -> A) : preserves R (gets f).
Proof. intros w. reflexivity. Qed.

Lemma preserves_modify (f : World -> World) :
  (∀ w, R w (f w)) → preserves R (modify f).
Proof. intros H w. apply H. Qed.

Lemma preserves_bind {A B} (m : M A) (k : A -> M B) :
  preserves R m → (∀ a, preserves R (k a)) → preserves R (bind m k).
Proof.
  intros Hm Hk w. unfold bind. specialize (Hm w).
  destruct (m w) as [[a|e] w']; simpl in *; [|done].
  etransitivity; [exact Hm|apply Hk].
Qed.

Lemma preserves_catch (m : M unit) :
  (∀ w e, R w (set_log (log w ++ [LogMessageException e]) w)) →
  preserves R m → preserves R (catch_and_log m).
Proof.
  intros Hlog Hm w. unfold catch_and_log. specialize (Hm w).
  destruct (m w) as [[a|e] w']; simpl in *; [done|].
  etransitivity; [exact Hm|apply Hlog].
Qed.

End Preserves.

Ltac preserves_step :=
  lazymatch goal with
  | |- PreOrder _ => apply _
  | |- ∀ _, preserves _ _ => intros ?
  | |- preserves _ (ret _) => apply preserves_ret
  | |- preserves _ (raise _) => apply preserves_raise
  | |- preserves _ (lift _) => apply preserves_lift
  | |- preserves _ (gets _) => apply preserves_gets
  | |- preserves _ (bind _ _) => apply preserves_bind
  | |- preserves _ (modify _) => apply preserves_modify; intros ?
  | |- preserves _ (match ?x with _ => _ end) => destruct x
  | |- preserves _ (send _) => unfold send
  | |- preserves _ (logger_error _) => unfold logger_error
  | |- preserves _ logging_no_handler => unfold logging_no_handler
  | |- preserves _ refresh => unfold refresh
  | |- preserves _ (ShowAlert _) => unfold ShowAlert
  | |- preserves _ (SetImage _ _ _ _) => unfold SetImage
  end.

Ltac preserves_tac := repeat preserves_step.

(** The frames of a list that are [showAlert] commands for a context. *)
Definition is_show_alert (context : string) (frame : json) : bool :=
  match frame with
  | JObj f =>
      (is_str "showAlert" (default JNull (obj_get "event" f)) &&
       is_str context (default JNull (obj_get "context" f)))%bool
  | _ => false
  end.

Definition alerts (context : string) (frames : list json) : nat :=
  length (filter (fun m => is_show_alert context m = true) frames).

(** The runtime's own state and the instance store stay, and no
    [showAlert] is sent: what the refresh hook guarantees. *)
Definition hook_frame (w w' : World) : Prop :=
  running w' = running w ∧ errors w' = errors w ∧ polled w' = polled w ∧
  contexts w' = contexts w ∧ ctxSettings w' = ctxSettings w ∧
  ctxInfo w' = ctxInfo w ∧
  ∀ c, alerts c (sent w') = alerts c (sent w).

#[local] Instance hook_frame_preorder : PreOrder hook_frame.
Proof.
  split.
  - intros w. by repeat split.
  - intros a b c (?&?&?&?&?&?&Hs) (?&?&?&?&?&?&Hs').
    repeat split; try congruence.
Qed.

Lemma alerts_app (c : string) (l k : list json) :
  alerts c (l ++ k) = (alerts c l + alerts c k)%nat.
Proof. unfold alerts. by rewrite filter_app, length_app. Qed.

Lemma alerts_snoc (c : string) (l : list json) (m : json) :
  alerts c (l ++ [m]) =
    (alerts c l + if is_show_alert c m then 1 else 0)%nat.
Proof.
  rewrite alerts_app. f_equal. unfold alerts.
  destruct (is_show_alert c m) eqn:E.
  - by rewrite filter_cons_True.
  - rewrite filter_cons_False; [done|]. by rewrite E.
Qed.

Section HookFrame.

Variable show_sink_info : Z -> string -> string.

Lemma on_loop_frame (cls : plugin_class) (context : string) :
  preserves hook_frame (on_loop show_sink_info cls context).
Proof.
  destruct cls; [apply preserves_ret; apply _|].
  unfold on_loop, PulsePlugin_on_loop.
  preserves_tac; repeat case_match; repeat split; try done.
  all: intros c; unfold set_sent; cbn [sent]; rewrite alerts_snoc; simpl; lia.
Qed.

(** The hook does not touch the list the loop runs over. *)
Lemma on_loop_contexts (cls : plugin_class) (context : string) (w : World) :
  contexts (snd (on_loop show_sink_info cls context w)) = contexts w.
Proof. apply (on_loop_frame cls context w). Qed.

End HookFrame.

(** ** One pass of the loop body *)

Definition raised {A} (r : result A) : bool :=
  match r with Ok _ => false | Raise _ => true end.

(** The failed refreshes of a context in a stretch of the history. *)
Definition failures (ctx : string) (h : list (string * bool)) : Z :=
  Z.of_nat (length (filter (fun p => p = (ctx, true)) h)).

Lemma failures_app (c : string) (h k : list (string * bool)) :
  failures c (h ++ k) = failures c h + failures c k.
Proof. unfold failures. rewrite filter_app, length_app. lia. Qed.

Lemma is_show_alert_message (d c : string) :
  is_show_alert d (showAlert_message c) = String.eqb c d.
Proof. reflexivity. Qed.

Section PollOne.

Variable show_sink_info : Z -> string -> string.
Variable cls : plugin_class.

(** What one pass does to the store, in terms of whether the hook raised:
    [r] is that fact and [stop] whether the loop is left. *)
Record poll_outcome (c : string) (w w1 : World) (r stop : bool) : Prop := {
  po_polled : polled w1 = polled w ++ [(c, r)];
  po_contexts : contexts w1 = contexts w;
  po_settings : ctxSettings w1 = ctxSettings w;
  po_info : ctxInfo w1 = ctxInfo w;
  po_errors :
    errors w1 = if r then <[c := error_count w c + 1]> (errors w) else errors w;
  po_stop : stop = (r && (MAX_ERRORS <=? error_count w c + 1))%bool;
  po_running : running w1 = if stop then false else running w;
  po_alerts : ∀ d, alerts d (sent w1) =
                (alerts d (sent w) +
                 if (stop && String.eqb c d)%bool then 1 else 0)%nat
}.

Lemma on_loop_failed_outcome (c : string) (e : exn) (w : World) :
  on_loop_failed c e w =
    let w1 := set_log (log w ++ [LogOnLoopError e])
                (set_errors (<[c := error_count w c + 1]> (errors w)) w) in
    if MAX_ERRORS <=? error_count w c + 1
    then (set_running false (set_sent (sent w ++ [showAlert_message c]) w1), true)
    else (w1, false).
Proof.
  unfold on_loop_failed, error_count, ShowAlert, send, modify.
  destruct (errors w !! c) as [n|] eqn:E; cbn -[MAX_ERRORS Z.leb Z.add];
    rewrite ?E, ?lookup_insert_eq, ?insert_insert_eq; cbn -[MAX_ERRORS Z.leb Z.add];
    reflexivity.
Qed.

Lemma poll_one_outcome (c : string) (w : World) :
  poll_outcome c w (fst (poll_one show_sink_info cls c w))
    (raised (fst (on_loop show_sink_info cls c w)))
    (snd (poll_one show_sink_info cls c w)).
Proof.
  unfold poll_one.
  pose proof (on_loop_frame show_sink_info cls c w) as (Hr & He & Hp & Hc & Hs & Hi & Ha).
  destruct (on_loop show_sink_info cls c w) as [[[]|e] w']; simpl in *.
  - split; simpl; try done. { by rewrite Hp. }
    intros d. rewrite Ha. lia.
  - rewrite on_loop_failed_outcome.
    assert (error_count (note_poll c true w') c = error_count w c) as ->.
    { unfold error_count. simpl. by rewrite He. }
    cbn zeta. destruct (MAX_ERRORS <=? error_count w c + 1) eqn:E.
    + split; store_simpl; rewrite ?Hp, ?He, ?E; try done.
      intros d. rewrite alerts_snoc, is_show_alert_message, Ha. done.
    + split; store_simpl; rewrite ?Hp, ?He, ?E; try done.
      intros d. rewrite Ha. simpl. lia.
Qed.

End PollOne.

(** ** A whole tick *)

Section Tick.

Variable show_sink_info : Z -> string -> string.
Variable cls : plugin_class.

Lemma error_count_insert (m : gmap string Z) (c d : string) (n : Z) (w w1 : World) :
  errors w = m → errors w1 = <[c := n]> m →
  error_count w1 d = if String.eqb c d then n else error_count w d.
Proof.
  intros Hw Hw1. unfold error_count. rewrite Hw1, Hw.
  destruct (String.eqb_spec c d) as [->|Hne].
  - by rewrite lookup_insert_eq.
  - by rewrite lookup_insert_ne.
Qed.

Lemma failures_one (c d : string) (r : bool) :
  failures d [(c, r)] = if (r && String.eqb c d)%bool then 1 else 0.
Proof.
  unfold failures.
  destruct r, (String.eqb_spec c d) as [->|Hne]; simpl.
  - by rewrite filter_cons_True.
  - rewrite filter_cons_False; [done|]. intros [=]. by apply Hne.
  - by rewrite filter_cons_False.
  - by rewrite filter_cons_False.
Qed.

(** The loop visits a prefix of the list, and a counter grows by the
    failed refreshes of its context. *)
Lemma for_contexts_history (l : list string) (w : World) :
  ∃ k, polled (for_contexts show_sink_info cls l w) = polled w ++ k ∧
       map fst k `prefix_of` l ∧
       contexts (for_contexts show_sink_info cls l w) = contexts w ∧
       ∀ c, error_count (for_contexts show_sink_info cls l w) c =
              error_count w c + failures c k.
Proof.
  revert w. induction l as [|c l IH]; intros w; simpl.
  - exists []. rewrite app_nil_r. repeat split; try done.
    intros c. unfold failures. simpl. lia.
  - pose proof (poll_one_outcome show_sink_info cls c w) as Ho.
    destruct (poll_one show_sink_info cls c w) as [w1 stop]; simpl in Ho.
    set (r := raised (fst (on_loop show_sink_info cls c w))) in *.
    assert (∀ d, error_count w1 d = error_count w d + failures d [(c, r)]) as Hcount.
    { intros d. rewrite failures_one. destruct Ho. destruct r; simpl.
      - rewrite (error_count_insert (errors w) c d _ w w1) by done.
        destruct (String.eqb_spec c d) as [->|]; lia.
      - unfold error_count. rewrite po_errors0. lia. }
    destruct stop.
    + exists [(c, r)]. destruct Ho. repeat split; try done.
      simpl. by apply prefix_cons, prefix_nil.
    + destruct (IH w1) as (k & Hp & Hpre & Hc & He).
      exists ((c, r) :: k). destruct Ho. repeat split.
      * rewrite Hp, po_polled0. by rewrite <- app_assoc.
      * simpl. by apply prefix_cons.
      * by rewrite Hc.
      * intros d. rewrite He, Hcount.
        change ((c, r) :: k) with ([(c, r)] ++ k). rewrite failures_app. lia.
Qed.

(** A context listed once is refreshed at most once in the visit. *)
Lemma failures_at_most_once (c : string) (k : list (string * bool)) (l : list string) :
  map fst k `prefix_of` l → NoDup l → failures c k ≤ 1.
Proof.
  intros [rest ->] Hnd. apply NoDup_app in Hnd as (Hnd & _ & _).
  induction k as [|[d r] k IH]; simpl in *; [unfold failures; simpl; lia|].
  apply NoDup_cons in Hnd as [Hd Hnd].
  change ((d, r) :: k) with ([(d, r)] ++ k). rewrite failures_app, failures_one.
  destruct (r && String.eqb d c)%bool eqn:E; [|specialize (IH Hnd); lia].
  apply andb_true_iff in E as [-> E]. apply String.eqb_eq in E. subst d.
  assert (failures c k = 0) as ->; [|lia].
  unfold failures. clear IH Hnd.
  induction k as [|[d r] k IH]; [done|]. simpl in Hd.
  rewrite filter_cons_False.
  - apply IH. intros H. apply Hd. by right.
  - intros [=]. subst. apply Hd. by left.
Qed.

(** When a counter crosses the threshold in a visit, the visit ends there:
    one alert for that context, none for another, the flag down. *)
Lemma for_contexts_threshold (l : list string) (w : World) (c : string) :
  error_count w c < MAX_ERRORS →
  MAX_ERRORS ≤ error_count (for_contexts show_sink_info cls l w) c →
  let w' := for_contexts show_sink_info cls l w in
  running w' = false ∧
  error_count w' c = MAX_ERRORS ∧
  last (polled w') = Some (c, true) ∧
  ∀ d, alerts d (sent w') =
         (alerts d (sent w) + if String.eqb c d then 1 else 0)%nat.
Proof.
  revert w. induction l as [|x l IH]; intros w Hlt Hge; simpl in *; [lia|].
  pose proof (poll_one_outcome show_sink_info cls x w) as Ho.
  destruct (poll_one show_sink_info cls x w) as [w1 stop]; simpl in Ho.
  set (r := raised (fst (on_loop show_sink_info cls x w))) in *.
  destruct Ho.
  assert (error_count w1 c =
          if (r && String.eqb x c)%bool then error_count w c + 1
          else error_count w c) as Hc.
  { destruct r; simpl.
    - rewrite (error_count_insert (errors w) x c (error_count w x + 1) w w1) by done.
      by destruct (String.eqb_spec x c) as [->|].
    - unfold error_count. by rewrite po_errors0. }
  destruct stop.
  - symmetry in po_stop0. apply andb_true_iff in po_stop0 as [-> Hmax].
    simpl in Hc. destruct (String.eqb_spec x c) as [->|Hne]; [|lia].
    apply Z.leb_le in Hmax. repeat split; try done; try lia.
    rewrite po_polled0. apply last_snoc.
  - assert (error_count w1 c < MAX_ERRORS) as Hlt1.
    { rewrite Hc. destruct (r && String.eqb x c)%bool eqn:E; [|done].
      apply andb_true_iff in E as [-> E]. apply String.eqb_eq in E. subst x.
      simpl in po_stop0. symmetry in po_stop0. apply Z.leb_gt in po_stop0. lia. }
    destruct (IH w1 Hlt1 Hge) as (H1 & H2 & H3 & H4).
    repeat split; try done.
    intros d. rewrite H4, po_alerts0. simpl. lia.
Qed.

End Tick.

(** ** What a frame can change *)

(** The loop's own state: the flag, the counters and the history. *)
Definition loop_frame (w w' : World) : Prop :=
  running w' = running w ∧ errors w' = errors w ∧ polled w' = polled w.

#[local] Instance loop_frame_preorder : PreOrder loop_frame.
Proof.
  split.
  - intros w. by repeat split.
  - intros a b c (?&?&?) (?&?&?). repeat split; congruence.
Qed.

Ltac unfold_handlers :=
  unfold call_with_payload, call_without_payload,
    PulsePlugin_onSendToPlugin, PulsePlugin_onPropertyInspectorDidAppear,
    PulsePlugin_onKeyUp, get_settings, setSettings, removeSettings,
    payload_context, set_volume, toggle_mute, volume_set_all_chans, pulse_mute.

Lemma route_loop_frame (cls : plugin_class) (parsed : json) :
  preserves loop_frame (route cls parsed).
Proof.
  unfold route. destruct parsed; try (apply preserves_ret; apply _).
  preserves_tac; unfold_handlers; preserves_tac;
    unfold upsert; repeat case_match; by repeat split.
Qed.

(** No frame, whatever it holds, moves the flag, a counter or the history
    of the loop. *)
Lemma receive_loop_frame (cls : plugin_class) (loaded : option json) :
  preserves loop_frame (receive cls loaded).
Proof.
  unfold receive. apply preserves_catch; [apply _|by repeat split|].
  apply preserves_bind; [apply _|apply preserves_lift; apply _|].
  intros parsed. apply route_loop_frame.
Qed.

(** Frames delivered one after the other. *)
Definition receive_all (cls : plugin_class) (frames : list (option json))
    (w : World) : World :=
  foldl (fun w f => snd (receive cls f w)) w frames.

Lemma receive_all_loop_frame (cls : plugin_class) (frames : list (option json))
    (w : World) :
  loop_frame w (receive_all cls frames w).
Proof.
  revert w. induction frames as [|f frames IH]; intros w; simpl; [reflexivity|].
  etransitivity; [apply (receive_loop_frame cls f w)|apply IH].
Qed.

(** ** Scenarios *)

(** A [willAppear] frame as the host sends it for a key. *)
Definition appear_frame (context : string) (settings : json) (action : string)
    : json :=
  JObj [("event", JStr "willAppear"); ("context", JStr context);
        ("action", JStr action);
        ("payload",
         JObj [("settings", settings);
               ("coordinates", JObj [("column", JInt 0); ("row", JInt 0)]);
               ("controller", JStr "Keypad");
               ("state", JInt 0);
               ("isInMultiAction", JBool false)])].

Definition disappear_frame (context : string) : json :=
  JObj [("event", JStr "willDisappear"); ("context", JStr context)].

Definition speakers : PulseSinkInfo :=
  {| index := 0; description := "Speakers"; mute := false; volume_percent := 50 |}.

(** The image is not drawn here. *)
Definition no_image (volume : Z) (name : string) : string := "".

(** A running plugin with one volume display, "X1", whose nickname was
    stored as a number: [nickname.strip()] raises in every refresh. *)
Definition failing_world : World :=
  snd (receive PulsePlugin
         (Some (appear_frame "X1"
                  (JObj [("audioDevice", JStr "Speakers");
                         ("deviceNickname", JInt 5)])
                  "com.example.pulse.showvol"))
         (run (init [speakers]))).

(** The same plugin after [n] ticks. *)
Fixpoint after_ticks (n : nat) (w : World) : World :=
  match n with
  | O => w
  | S n' => after_ticks n' (tick no_image PulsePlugin w)
  end.

Example failing_world_hook_raises :
  fst (on_loop no_image PulsePlugin "X1" failing_world) = Raise AttributeError.
Proof. reflexivity. Qed.

(** The scenario of the specification: after five ticks the loop has ended,
    with one alert for "X1" and five refreshes, all failed. *)
Example five_ticks_stop_the_loop :
  let w := after_ticks 5 failing_world in
  image_loop no_image PulsePlugin 5 failing_world = Some w ∧
  running w = false ∧
  sent w = [showAlert_message "X1"] ∧
  polled w = [("X1", true); ("X1", true); ("X1", true); ("X1", true); ("X1", true)] ∧
  errors w !! "X1" = Some 5.
Proof. vm_compute. repeat split. Qed.

(** ** The error counter and the circuit breaker *)

Section Breaker.

Variable show_sink_info : Z -> string -> string.
Variable cls : plugin_class.

(** C2.  In one pass of the loop body for a context: if the hook raises,
    the counter of that context is one more than before (1 when there was
    no entry) and the other entries stay; if the hook returns, the map of
    counters is the one before.  Over a tick, the counter grows by the
    failed refreshes of the context, at most one when the context is listed
    once. *)
Theorem error_counter_increments (context : string) (w : World) :
  let w1 := fst (poll_one show_sink_info cls context w) in
  (∀ e, fst (on_loop show_sink_info cls context w) = Raise e →
     errors w1 = <[context := error_count w context + 1]> (errors w) ∧
     error_count w1 context = error_count w context + 1 ∧
     (errors w !! context = None → errors w1 !! context = Some 1)) ∧
  (fst (on_loop show_sink_info cls context w) = Ok tt → errors w1 = errors w) ∧
  ∃ k, polled (tick show_sink_info cls w) = polled w ++ k ∧
       map fst k `prefix_of` contexts w ∧
       error_count (tick show_sink_info cls w) context =
         error_count w context + failures context k ∧
       (NoDup (contexts w) → failures context k ≤ 1).
Proof.
  pose proof (poll_one_outcome show_sink_info cls context w) as Ho.
  destruct Ho. repeat split.
  - rewrite po_errors0, H. done.
  - unfold error_count at 1. rewrite po_errors0, H. simpl.
    by rewrite lookup_insert_eq.
  - intros Hnone. rewrite po_errors0, H. simpl. unfold error_count.
    by rewrite Hnone, lookup_insert_eq.
  - intros H. by rewrite po_errors0, H.
  - destruct (for_contexts_history show_sink_info cls (contexts w) w)
      as (k & Hp & Hpre & _ & He).
    exists k. repeat split; try done.
    intros Hnd. by eapply failures_at_most_once.
Qed.

(** C1.  When the counter of a context, below the threshold before a tick,
    has reached it after the tick, then that tick sent one [showAlert] for
    the context and none for another, lowered the running flag and ended
    with the failed refresh of that context; from there [image_loop]
    returns at once, and no frame that arrives later raises the flag
    again. *)
Theorem threshold_stops_loop (context : string) (w : World) :
  error_count w context < MAX_ERRORS →
  MAX_ERRORS ≤ error_count (tick show_sink_info cls w) context →
  let w' := tick show_sink_info cls w in
  running w' = false ∧
  error_count w' context = MAX_ERRORS ∧
  alerts context (sent w') = S (alerts context (sent w)) ∧
  (∀ d, d ≠ context → alerts d (sent w') = alerts d (sent w)) ∧
  last (polled w') = Some (context, true) ∧
  (∀ fuel, image_loop show_sink_info cls fuel w' = Some w') ∧
  ∀ frames fuel,
    let w'' := receive_all cls frames w' in
    image_loop show_sink_info cls fuel w'' = Some w'' ∧ polled w'' = polled w'.
Proof.
  intros Hlt Hge.
  destruct (for_contexts_threshold show_sink_info cls (contexts w) w context Hlt Hge)
    as (Hrun & Hcount & Hlast & Halerts).
  fold (tick show_sink_info cls w) in *. cbn zeta.
  assert (∀ u fuel, running u = false → image_loop show_sink_info cls fuel u = Some u)
    as Hexit.
  { intros u fuel Hu. destruct fuel; simpl; by rewrite Hu. }
  split; [exact Hrun|]. split; [exact Hcount|]. split; [|split; [|split; [|split]]].
  - rewrite Halerts, String.eqb_refl. lia.
  - intros d Hd. rewrite Halerts.
    destruct (String.eqb_spec context d); [congruence|lia].
  - exact Hlast.
  - intros fuel. by apply Hexit.
  - intros frames fuel.
    destruct (receive_all_loop_frame cls frames (tick show_sink_info cls w))
      as (Hr & _ & Hp).
    split; [|exact Hp]. apply Hexit. by rewrite Hr.
Qed.

End Breaker.

Lemma error_counter_increments_witness :
  error_count (fst (poll_one no_image PulsePlugin "X1" failing_world)) "X1" = 0 + 1.
Proof.
  pose proof (error_counter_increments no_image PulsePlugin "X1" failing_world) as H.
  cbn zeta in H. destruct H as (H & _).
  apply (H AttributeError). reflexivity.
Defined.

Lemma threshold_stops_loop_witness :
  running (tick no_image PulsePlugin (after_ticks 4 failing_world)) = false.
Proof.
  apply (threshold_stops_loop no_image PulsePlugin "X1" (after_ticks 4 failing_world)).
  - vm_compute. reflexivity.
  - vm_compute. discriminate.
Defined.

(** ** The instance store *)

(** What holds of the store in every state of the program: the active set
    has no duplicate, and a context with info is active and has settings. *)
Definition store_inv (w : World) : Prop :=
  NoDup (contexts w) ∧
  ∀ c, is_Some (ctxInfo w !! c) →
       c ∈ contexts w ∧ is_Some (ctxSettings w !! c).

(** What holds in addition as long as every appear frame is complete. *)
Definition store_full (w : World) : Prop :=
  store_inv w ∧ ∀ c, c ∈ contexts w → is_Some (ctxInfo w !! c).

(** The active set and the info stay and no settings are lost: all that
    the handlers other than appear and disappear do to the store. *)
Definition store_grows (w w' : World) : Prop :=
  contexts w' = contexts w ∧ ctxInfo w' = ctxInfo w ∧
  ∀ c, is_Some (ctxSettings w !! c) → is_Some (ctxSettings w' !! c).

#[local] Instance store_grows_preorder : PreOrder store_grows.
Proof.
  split.
  - intros w. by repeat split.
  - intros a b c (?&?&Hs) (?&?&Hs'). repeat split; try congruence.
    intros x Hx. by apply Hs', Hs.
Qed.

Lemma store_grows_inv (w w' : World) :
  store_grows w w' → store_inv w → store_inv w'.
Proof.
  intros (Hc & Hi & Hs) (Hnd & Hinfo). split; [by rewrite Hc|].
  intros c. rewrite Hc, Hi. intros H. destruct (Hinfo c H). split; [done|by apply Hs].
Qed.

Lemma store_grows_full (w w' : World) :
  store_grows w w' → store_full w → store_full w'.
Proof.
  intros Hg (Hinv & Hfull). split; [by eapply store_grows_inv|].
  destruct Hg as (Hc & Hi & _). intros c. rewrite Hc, Hi. apply Hfull.
Qed.

Lemma remove_first_elem (c d : string) (l : list string) :
  NoDup l → d ∈ remove_first c l ↔ d ∈ l ∧ d ≠ c.
Proof.
  induction l as [|x l IH]; simpl; intros Hnd.
  - split; [inversion 1|intros [H _]; inversion H].
  - apply NoDup_cons in Hnd as [Hx Hnd].
    destruct (String.eqb_spec c x) as [->|Hne].
    + split.
      * intros Hd. split; [by right|]. intros ->. done.
      * intros [Hd Hne]. apply elem_of_cons in Hd as [?|?]; done.
    + rewrite !elem_of_cons, (IH Hnd). split.
      * intros [->|[? ?]]; split; auto.
      * intros [[->|?] ?]; auto.
Qed.

Lemma remove_first_NoDup (c : string) (l : list string) :
  NoDup l → NoDup (remove_first c l).
Proof.
  induction l as [|x l IH]; simpl; intros Hnd; [done|].
  apply NoDup_cons in Hnd as [Hx Hnd].
  destruct (String.eqb_spec c x); [done|].
  apply NoDup_cons. split; [|by apply IH].
  rewrite remove_first_elem by done. intros [? _]. done.
Qed.

Lemma remove_first_absent (c : string) (l : list string) :
  c ∉ l → remove_first c l = l.
Proof.
  induction l as [|x l IH]; simpl; intros Hc; [done|].
  apply not_elem_of_cons in Hc as [Hne Hc].
  destruct (String.eqb_spec c x); [done|]. by rewrite IH.
Qed.

Lemma upsert_elem (c : string) (w : World) : c ∈ contexts (upsert c w).
Proof.
  unfold upsert. destruct (member c (contexts w)) eqn:E.
  - by apply member_spec.
  - simpl. apply elem_of_app. right. by apply list_elem_of_singleton.
Qed.

Lemma upsert_inv (c : string) (w : World) : store_inv w → store_inv (upsert c w).
Proof.
  intros (Hnd & Hinfo). unfold upsert. destruct (member c (contexts w)) eqn:E; [done|].
  apply member_false in E. split; simpl.
  - apply NoDup_app. repeat split; [done| |apply NoDup_singleton].
    intros x Hx Hx'. apply list_elem_of_singleton in Hx'. by subst.
  - intros d Hd. destruct (Hinfo d Hd). split; [|done].
    apply elem_of_app. by left.
Qed.

Lemma set_settings_inv (c : string) (v : json) (w : World) :
  store_inv w → store_inv (set_ctxSettings (<[c := v]> (ctxSettings w)) w).
Proof.
  intros (Hnd & Hinfo). split; simpl; [done|].
  intros d Hd. destruct (Hinfo d Hd) as [? ?]. split; [done|].
  destruct (decide (c = d)) as [->|Hne].
  - rewrite lookup_insert_eq. by eexists.
  - by rewrite lookup_insert_ne.
Qed.

Lemma set_info_inv (c : string) (v : json) (w : World) :
  store_inv w → c ∈ contexts w → is_Some (ctxSettings w !! c) →
  store_inv (set_ctxInfo (<[c := v]> (ctxInfo w)) w).
Proof.
  intros (Hnd & Hinfo) Hc Hs. split; simpl; [done|].
  intros d. destruct (decide (c = d)) as [->|Hne].
  - done.
  - rewrite lookup_insert_ne by done. apply Hinfo.
Qed.

Ltac store_inv_step :=
  lazymatch goal with
  | |- store_inv (upsert _ _) => apply upsert_inv
  | |- store_inv (set_ctxSettings (<[?c := ?v]> _) ?u) =>
      apply (set_settings_inv c v u)
  | |- store_inv (set_ctxInfo (<[?c := ?v]> _) ?u) =>
      apply (set_info_inv c v u);
      [| apply upsert_elem | simpl; rewrite lookup_insert_eq; by eexists]
  end.

Lemma setSettings_inv (payload : json) (w : World) :
  store_inv w → store_inv (snd (setSettings payload w)).
Proof.
  intros Hinv. unfold setSettings, payload_context. run_monad.
  repeat case_match; simplify_eq; simpl; try done; repeat store_inv_step; done.
Qed.

(** [removeSettings] in a store that satisfies [store_inv]: the failed
    lookups leave nothing of the context behind. *)
Lemma removeSettings_absent (payload : json) (c : string) (w : World) :
  subscript payload "context" = Ok (JStr c) → c ∉ contexts w →
  removeSettings payload w = (Raise ValueError, w).
Proof.
  intros Hc Habs. apply member_false in Habs.
  unfold removeSettings, payload_context. run_monad. by rewrite Hc, Habs.
Qed.

Lemma removeSettings_present (payload : json) (c : string) (w : World) :
  subscript payload "context" = Ok (JStr c) → c ∈ contexts w → store_inv w →
  let w' := snd (removeSettings payload w) in
  contexts w' = remove_first c (contexts w) ∧
  ctxSettings w' = delete c (ctxSettings w) ∧
  ctxInfo w' = delete c (ctxInfo w) ∧
  fst (removeSettings payload w) =
    match ctxSettings w !! c, ctxInfo w !! c with
    | Some _, Some _ => Ok tt
    | _, _ => Raise KeyError
    end.
Proof.
  intros Hc Hin (Hnd & Hinfo). apply member_spec in Hin.
  unfold removeSettings, payload_context. run_monad. rewrite Hc, Hin. simpl.
  destruct (ctxSettings w !! c) as [s|] eqn:Es; simpl.
  - destruct (ctxInfo w !! c) as [i|] eqn:Ei; simpl; repeat split; try done.
    by rewrite delete_id.
  - assert (ctxInfo w !! c = None) as Ei.
    { destruct (ctxInfo w !! c) eqn:Ei; [|done].
      destruct (Hinfo c) as [_ [? ?]]; [by eexists|congruence]. }
    repeat split; by rewrite ?delete_id.
Qed.

Lemma removeSettings_inv (payload : json) (w : World) :
  store_inv w → store_inv (snd (removeSettings payload w)).
Proof.
  intros Hinv.
  destruct (subscript payload "context") as [c|e] eqn:Hc.
  2: { unfold removeSettings, payload_context. run_monad. by rewrite Hc. }
  destruct c as [| | | |c| |];
    try (unfold removeSettings, payload_context; run_monad; by rewrite Hc).
  destruct (decide (c ∈ contexts w)) as [Hin|Hout].
  2: { by rewrite (removeSettings_absent payload c w). }
  destruct (removeSettings_present payload c w Hc Hin Hinv) as (H1 & H2 & H3 & _).
  destruct Hinv as (Hnd & Hinfo). split.
  - rewrite H1. by apply remove_first_NoDup.
  - intros d. rewrite H1, H2, H3, lookup_delete_is_Some. intros [Hne Hd].
    destruct (Hinfo d Hd) as [? ?].
    rewrite remove_first_elem, lookup_delete_is_Some by done. auto.
Qed.

Lemma removeSettings_full (payload : json) (w : World) :
  store_full w → store_full (snd (removeSettings payload w)).
Proof.
  intros (Hinv & Hfull). split; [by apply removeSettings_inv|].
  destruct (subscript payload "context") as [c|e] eqn:Hc.
  2: { unfold removeSettings, payload_context. run_monad. by rewrite Hc. }
  destruct c as [| | | |c| |];
    try (unfold removeSettings, payload_context; run_monad; by rewrite Hc).
  destruct (decide (c ∈ contexts w)) as [Hin|Hout].
  2: { by rewrite (removeSettings_absent payload c w). }
  destruct (removeSettings_present payload c w Hc Hin Hinv) as (H1 & H2 & H3 & _).
  intros d. rewrite H1, H3, lookup_delete_is_Some.
  rewrite remove_first_elem by apply Hinv. intros [? ?]. auto.
Qed.

(** An appear frame with every field the handler reads. *)
Definition appear_fields (payload : json) (c : string)
    (settings coordinates controller state isInMultiAction action : json) : Prop :=
  subscript payload "context" = Ok (JStr c) ∧
  subscript payload "action" = Ok action ∧
  ∃ inner, subscript payload "payload" = Ok inner ∧
           subscript inner "settings" = Ok settings ∧
           subscript inner "coordinates" = Ok coordinates ∧
           subscript inner "controller" = Ok controller ∧
           subscript inner "state" = Ok state ∧
           subscript inner "isInMultiAction" = Ok isInMultiAction.

Definition info_record (coordinates controller state isInMultiAction action : json)
    : json :=
  JObj [("coordinates", coordinates); ("controller", controller);
        ("state", state); ("isInMultiAction", isInMultiAction);
        ("action", action)].

Lemma setSettings_complete (payload : json) (c : string)
    (s co ct st mu ac : json) (w : World) :
  appear_fields payload c s co ct st mu ac →
  setSettings payload w =
    (Ok tt,
     set_ctxInfo (<[c := info_record co ct st mu ac]> (ctxInfo w))
       (set_ctxSettings (<[c := s]> (ctxSettings w)) (upsert c w))).
Proof.
  intros (Hc & Ha & inner & Hp & H1 & H2 & H3 & H4 & H5).
  unfold setSettings, payload_context. run_monad.
  rewrite Hc. simpl. rewrite Hp, H1. simpl. rewrite H2, H3, H4, H5, Ha.
  unfold upsert. by destruct (member c (contexts w)).
Qed.

(** Whether a decoded frame has the fields of an appear frame. *)
Definition is_ok {A} (r : result A) : bool :=
  match r with Ok _ => true | Raise _ => false end.

Definition appear_complete (payload : json) : bool :=
  match subscript payload "context", subscript payload "payload" with
  | Ok (JStr _), Ok inner =>
      (is_ok (subscript payload "action") &&
       is_ok (subscript inner "settings") &&
       is_ok (subscript inner "coordinates") &&
       is_ok (subscript inner "controller") &&
       is_ok (subscript inner "state") &&
       is_ok (subscript inner "isInMultiAction"))%bool
  | _, _ => false
  end.

Lemma appear_complete_fields (payload : json) :
  appear_complete payload = true →
  ∃ c s co ct st mu ac, appear_fields payload c s co ct st mu ac.
Proof.
  unfold appear_complete, appear_fields, is_ok. intros H.
  repeat case_match; simplify_eq; simpl in *; try done.
  repeat eexists; eauto.
Qed.

Lemma setSettings_full (payload : json) (w : World) :
  appear_complete payload = true →
  store_full w → store_full (snd (setSettings payload w)).
Proof.
  intros Hok (Hinv & Hfull). split; [by apply setSettings_inv|].
  destruct (appear_complete_fields payload Hok) as (c&s&co&ct&st&mu&ac&Hf).
  rewrite (setSettings_complete payload c s co ct st mu ac w Hf). simpl.
  intros d Hd. destruct (decide (c = d)) as [->|Hne].
  - rewrite lookup_insert_eq. by eexists.
  - rewrite lookup_insert_ne by done. apply Hfull.
    unfold upsert in Hd. destruct (member c (contexts w)); [done|].
    simpl in Hd. apply elem_of_app in Hd as [?|Hd]; [done|].
    apply list_elem_of_singleton in Hd. congruence.
Qed.

(** ** The router and the store *)

(** The handler a decoded frame is dispatched to, if any. *)
Definition dispatched (loaded : option json) : option handler :=
  match loaded with
  | Some (JObj fields) =>
      match method_name (default JNull (obj_get "event" fields)) with
      | Ok name => resolve name
      | Raise _ => None
      end
  | _ => None
  end.

(** Nothing but the log differs. *)
Definition only_logged (w w' : World) : Prop := w' = set_log (log w') w.

Lemma only_logged_refl (w : World) : only_logged w w.
Proof. by destruct w. Qed.

Lemma only_logged_trans (a b c : World) :
  only_logged a b → only_logged b c → only_logged a c.
Proof. unfold only_logged. intros Hab ->. by rewrite Hab. Qed.

Lemma route_dispatch (cls : plugin_class) (parsed : json) (w : World) :
  match dispatched (Some parsed) with
  | None => only_logged w (snd (route cls parsed w))
  | Some h =>
      route cls parsed w =
        if is_str "systemDidWakeUp"
             (default JNull (match parsed with
                             | JObj fields => obj_get "event" fields
                             | _ => None
                             end))
        then call_without_payload h w
        else call_with_payload cls h parsed w
  end.
Proof.
  unfold dispatched, route.
  destruct parsed; try apply only_logged_refl.
  run_monad.
  destruct (method_name (default JNull (obj_get "event" fields))) as [name|e];
    simpl; [|apply only_logged_refl].
  destruct (resolve name); [by case_match|].
  unfold logging_no_handler, modify. simpl. by destruct w.
Qed.

Lemma call_without_payload_same (h : handler) (w : World) :
  snd (call_without_payload h w) = w.
Proof. by destruct h. Qed.

(** The handlers that write the instance store on purpose. *)
Definition store_handler (h : handler) : bool :=
  match h with
  | H_onDidReceiveSettings | H_onWillAppear | H_onWillDisappear => true
  | _ => false
  end.

Lemma other_handlers_grow (cls : plugin_class) (h : handler) (parsed : json) :
  store_handler h = false →
  preserves store_grows (call_with_payload cls h parsed).
Proof.
  intros Hh. destruct h, cls; try discriminate Hh;
    unfold_handlers; preserves_tac; repeat case_match; repeat split; try done.
  all: simpl; intros d Hd; rewrite lookup_insert_is_Some.
  all: match goal with |- ?x = ?y ∨ _ => destruct (decide (x = y)); auto end.
Qed.

Lemma call_inv (cls : plugin_class) (h : handler) (parsed : json) (w : World) :
  store_inv w → store_inv (snd (call_with_payload cls h parsed w)).
Proof.
  intros Hinv. destruct (store_handler h) eqn:Hh.
  - destruct h; try discriminate Hh; simpl.
    + by apply setSettings_inv.
    + by apply setSettings_inv.
    + by apply removeSettings_inv.
  - eapply store_grows_inv; [|done]. by apply other_handlers_grow.
Qed.

Lemma only_logged_inv (w w' : World) :
  only_logged w w' → store_inv w → store_inv w'.
Proof. intros ->. done. Qed.

Lemma only_logged_full (w w' : World) :
  only_logged w w' → store_full w → store_full w'.
Proof. intros ->. done. Qed.

Lemma route_inv (cls : plugin_class) (parsed : json) (w : World) :
  store_inv w → store_inv (snd (route cls parsed w)).
Proof.
  intros Hinv. pose proof (route_dispatch cls parsed w) as H.
  destruct (dispatched (Some parsed)) as [h|].
  - rewrite H. case_match; [by rewrite call_without_payload_same|by apply call_inv].
  - by eapply only_logged_inv.
Qed.

Lemma catch_and_log_store (m : M unit) (w : World) :
  only_logged (snd (m w)) (snd (catch_and_log m w)).
Proof.
  unfold catch_and_log. destruct (m w) as [[[]|e] w']; simpl.
  - apply only_logged_refl.
  - by destruct w'.
Qed.

Lemma receive_route (cls : plugin_class) (loaded : option json) (w : World) :
  only_logged (match loaded with
               | Some parsed => snd (route cls parsed w)
               | None => w
               end)
    (snd (receive cls loaded w)).
Proof.
  unfold receive.
  match goal with |- only_logged _ (snd (catch_and_log ?m w)) =>
    pose proof (catch_and_log_store m w) as H end.
  destruct loaded; exact H.
Qed.

Lemma receive_inv (cls : plugin_class) (loaded : option json) (w : World) :
  store_inv w → store_inv (snd (receive cls loaded w)).
Proof.
  intros Hinv. eapply only_logged_inv; [apply receive_route|].
  destruct loaded; [by apply route_inv|done].
Qed.

(** The frames an appear handler can take in full. *)
Definition complete_frames (loaded : option json) : Prop :=
  ∀ parsed, loaded = Some parsed →
    dispatched loaded = Some H_onWillAppear ∨
    dispatched loaded = Some H_onDidReceiveSettings →
    appear_complete parsed = true.

Lemma receive_full (cls : plugin_class) (loaded : option json) (w : World) :
  complete_frames loaded → store_full w → store_full (snd (receive cls loaded w)).
Proof.
  intros Hok Hfull. eapply only_logged_full; [apply receive_route|].
  destruct loaded as [parsed|]; [|done].
  pose proof (route_dispatch cls parsed w) as H.
  specialize (Hok parsed eq_refl).
  destruct (dispatched (Some parsed)) as [h|]; [|by eapply only_logged_full].
  rewrite H. case_match; [by rewrite call_without_payload_same|].
  destruct (store_handler h) eqn:Hh.
  - destruct h; try discriminate Hh; simpl.
    + apply setSettings_full; auto.
    + apply setSettings_full; auto.
    + by apply removeSettings_full.
  - eapply store_grows_full; [|done]. by apply other_handlers_grow.
Qed.

(** ** Reachable stores *)

Section Reachable.

Variable show_sink_info : Z -> string -> string.
Variable cls : plugin_class.

(** A tick leaves the instance store as it is. *)
Lemma for_contexts_store (l : list string) (w : World) :
  let w' := for_contexts show_sink_info cls l w in
  contexts w' = contexts w ∧ ctxSettings w' = ctxSettings w ∧
  ctxInfo w' = ctxInfo w.
Proof.
  revert w. induction l as [|c l IH]; intros w; simpl; [done|].
  pose proof (poll_one_outcome show_sink_info cls c w) as Ho.
  destruct (poll_one show_sink_info cls c w) as [w1 stop]; simpl in Ho.
  destruct Ho. destruct stop; [done|].
  destruct (IH w1) as (-> & -> & ->). done.
Qed.

Lemma tick_inv (w : World) :
  store_inv w → store_inv (tick show_sink_info cls w).
Proof.
  destruct (for_contexts_store (contexts w) w) as (Hc & Hs & Hi).
  unfold tick, store_inv. by rewrite Hc, Hs, Hi.
Qed.

Lemma tick_full (w : World) :
  store_full w → store_full (tick show_sink_info cls w).
Proof.
  destruct (for_contexts_store (contexts w) w) as (Hc & Hs & Hi).
  unfold tick, store_full, store_inv. by rewrite Hc, Hs, Hi.
Qed.

Lemma init_full (server : list PulseSinkInfo) : store_full (run (init server)).
Proof.
  split; [split|]; simpl.
  - apply NoDup_nil_2.
  - intros c [? Hc]. by rewrite lookup_empty in Hc.
  - intros c Hc. inversion Hc.
Qed.

Lemma reachable_store_inv (accept : option json -> Prop) (w : World) :
  reachable_by show_sink_info accept cls w → store_inv w.
Proof.
  induction 1 as [server|w e u _ IH|w loaded _ IH _|w _ IH _|w _ IH|w server _ IH].
  - apply init_full.
  - exact IH.
  - by apply receive_inv.
  - by apply tick_inv.
  - exact IH.
  - exact IH.
Qed.

Lemma reachable_store_full (w : World) :
  reachable_by show_sink_info complete_frames cls w → store_full w.
Proof.
  induction 1 as [server|w e u _ IH|w loaded _ IH Hok|w _ IH _|w _ IH|w server _ IH].
  - apply init_full.
  - exact IH.
  - by apply receive_full.
  - by apply tick_full.
  - exact IH.
  - exact IH.
Qed.

(** A run restricted to some frames is a run. *)
Lemma reachable_by_reachable (accept : option json -> Prop) (w : World) :
  reachable_by show_sink_info accept cls w → reachable show_sink_info cls w.
Proof.
  unfold reachable.
  induction 1; [apply reach_run|by apply reach_open|by apply reach_receive
               |by apply reach_tick|by apply reach_close|by apply reach_server].
Qed.

(** An entry of a counter is owed to a failed refresh, and stays. *)
Lemma for_contexts_entries (l : list string) (w : World) (c : string) :
  let w' := for_contexts show_sink_info cls l w in
  (is_Some (errors w !! c) → is_Some (errors w' !! c)) ∧
  (is_Some (errors w' !! c) →
     is_Some (errors w !! c) ∨ ((c, true) ∈ polled w' ∧ c ∈ l)) ∧
  ((c, true) ∈ polled w → (c, true) ∈ polled w').
Proof.
  revert w. induction l as [|x l IH]; intros w; simpl; [by auto|].
  pose proof (poll_one_outcome show_sink_info cls x w) as Ho.
  destruct (poll_one show_sink_info cls x w) as [w1 stop]; simpl in Ho.
  set (r := raised (fst (on_loop show_sink_info cls x w))) in *.
  destruct Ho.
  assert ((is_Some (errors w !! c) → is_Some (errors w1 !! c)) ∧
          (is_Some (errors w1 !! c) →
             is_Some (errors w !! c) ∨ ((c, true) ∈ polled w1 ∧ c = x)) ∧
          ((c, true) ∈ polled w → (c, true) ∈ polled w1)) as (H1 & H2 & H3).
  { rewrite po_errors0, po_polled0. split; [|split].
    - destruct r; [|done]. rewrite lookup_insert_is_Some.
      destruct (decide (x = c)); auto.
    - destruct r; [|auto]. rewrite lookup_insert_is_Some.
      intros [->|[_ ?]]; [|by left]. right. split; [|done].
      apply elem_of_app. right. by apply list_elem_of_singleton.
    - intros ?. apply elem_of_app. by left. }
  destruct stop.
  - split; [done|]. split; [|done].
    intros H. destruct (H2 H) as [?|[? ->]]; [by left|right].
    split; [done|by left].
  - destruct (IH w1) as (I1 & I2 & I3). split; [auto|]. split; [|auto].
    intros H. destruct (I2 H) as [H'|[? ?]].
    + destruct (H2 H') as [?|[? ->]]; [by left|right].
      split; [by apply I3|by left].
    + right. split; [done|by right].
Qed.

Lemma reachable_errors_polled (w : World) (c : string) :
  reachable show_sink_info cls w →
  is_Some (errors w !! c) → (c, true) ∈ polled w.
Proof.
  induction 1 as [server|w e u _ IH|w loaded _ IH _|w _ IH _|w _ IH|w server _ IH];
    try exact IH.
  - simpl. intros [? H]. by rewrite lookup_empty in H.
  - destruct (receive_loop_frame cls loaded w) as (_ & -> & ->). exact IH.
  - intros H. destruct (for_contexts_entries (contexts w) w c) as (_ & H2 & H3).
    destruct (H2 H) as [?|[? _]]; [|done]. by apply H3, IH.
Qed.

(** While the flag is up, every counter is below the threshold. *)
Lemma for_contexts_below (l : list string) (w : World) :
  (∀ c, error_count w c < MAX_ERRORS) →
  running (for_contexts show_sink_info cls l w) = true →
  ∀ c, error_count (for_contexts show_sink_info cls l w) c < MAX_ERRORS.
Proof.
  revert w. induction l as [|x l IH]; intros w Hlt Hrun; simpl in *; [done|].
  pose proof (poll_one_outcome show_sink_info cls x w) as Ho.
  destruct (poll_one show_sink_info cls x w) as [w1 stop]; simpl in Ho.
  set (r := raised (fst (on_loop show_sink_info cls x w))) in *.
  destruct Ho. destruct stop; [congruence|].
  apply IH; [|done]. intros c.
  destruct r; simpl in *.
  - rewrite (error_count_insert (errors w) x c (error_count w x + 1) w w1) by done.
    symmetry in po_stop0. apply Z.leb_gt in po_stop0.
    by destruct (String.eqb_spec x c).
  - unfold error_count. rewrite po_errors0. apply Hlt.
Qed.

Lemma reachable_below_threshold (accept : option json -> Prop) (w : World) :
  reachable_by show_sink_info accept cls w →
  running w = true → ∀ c, error_count w c < MAX_ERRORS.
Proof.
  induction 1 as [server|w e u _ IH|w loaded _ IH _|w _ IH Hrun|w _ IH|w server _ IH];
    try exact IH.
  - intros _ c. unfold error_count. simpl. by rewrite lookup_empty.
  - destruct (receive_loop_frame cls loaded w) as (Hr & He & _).
    unfold error_count. rewrite Hr, He. exact IH.
  - apply for_contexts_below. by apply IH.
  - discriminate.
Qed.

End Reachable.

(** ** Appear and disappear *)

Lemma occurs_once (c : string) (l : list string) :
  NoDup l → c ∈ l → length (filter (fun x => x = c) l) = 1%nat.
Proof.
  induction l as [|x l IH]; intros Hnd Hin; [inversion Hin|].
  apply NoDup_cons in Hnd as [Hx Hnd].
  destruct (decide (x = c)) as [->|Hne].
  - rewrite filter_cons_True by done. simpl. f_equal.
    clear IH Hnd Hin. induction l as [|y l IH]; [done|].
    apply not_elem_of_cons in Hx as [Hy Hx].
    rewrite filter_cons_False by congruence. by apply IH.
  - rewrite filter_cons_False by done. apply IH; [done|].
    apply elem_of_cons in Hin as [?|?]; [congruence|done].
Qed.

Lemma upsert_other (c d : string) (w : World) :
  d ≠ c → d ∈ contexts (upsert c w) ↔ d ∈ contexts w.
Proof.
  intros Hne. unfold upsert. destruct (member c (contexts w)); [done|]. simpl.
  rewrite elem_of_app, list_elem_of_singleton.
  split; [intros [?|?]; [done|congruence]|by left].
Qed.

(** Whatever else a frame holds, [setSettings] has the active set of the
    upsert of its context, also when it raises on a field read later. *)
Lemma setSettings_contexts (payload : json) (c : string) (w : World) :
  subscript payload "context" = Ok (JStr c) →
  contexts (snd (setSettings payload w)) = contexts (upsert c w).
Proof.
  intros Hc. unfold setSettings, payload_context. run_monad. rewrite Hc. simpl.
  repeat case_match; reflexivity.
Qed.

Section Instances.

Variable show_sink_info : Z -> string -> string.
Variable cls : plugin_class.

(** C8, as the code has it.  In a state of the program, after the appear
    handler (or the settings-received handler, which is the same code) has
    run on a frame for context [c], [c] occurs once in the active set,
    which is the old one when [c] was in it, and the other contexts are in
    it as before; this holds for every such frame.  When the frame carries
    all the fields the handler reads, the handler has returned and the
    settings and info of [c] are those of the frame, whatever they were,
    and the entries of the other contexts are as before. *)
Theorem appear_upserts (payload : json) (c : string) (w : World) :
  reachable show_sink_info cls w →
  subscript payload "context" = Ok (JStr c) →
  call_with_payload cls H_onWillAppear payload w = setSettings payload w ∧
  call_with_payload cls H_onDidReceiveSettings payload w = setSettings payload w ∧
  let w' := snd (setSettings payload w) in
  length (filter (fun x => x = c) (contexts w')) = 1%nat ∧
  (c ∈ contexts w → contexts w' = contexts w) ∧
  (∀ d, d ≠ c → d ∈ contexts w' ↔ d ∈ contexts w) ∧
  ∀ s co ct st mu ac,
    appear_fields payload c s co ct st mu ac →
    fst (setSettings payload w) = Ok tt ∧
    ctxSettings w' !! c = Some s ∧
    ctxInfo w' !! c = Some (info_record co ct st mu ac) ∧
    ∀ d, d ≠ c →
         ctxSettings w' !! d = ctxSettings w !! d ∧
         ctxInfo w' !! d = ctxInfo w !! d.
Proof.
  intros Hreach Hc. split; [done|]. split; [done|]. cbn zeta.
  pose proof (reachable_store_inv show_sink_info cls _ w Hreach) as Hinv.
  pose proof (setSettings_inv payload w Hinv) as (Hnd & _).
  pose proof (setSettings_contexts payload c w Hc) as Hctx.
  split; [|split; [|split]].
  - apply occurs_once; [done|]. rewrite Hctx. apply upsert_elem.
  - intros Hin. apply member_spec in Hin. rewrite Hctx. unfold upsert.
    by rewrite Hin.
  - intros d Hne. rewrite Hctx. by apply upsert_other.
  - intros s co ct st mu ac Hf.
    rewrite (setSettings_complete payload c s co ct st mu ac w Hf).
    cbn [fst snd]. store_simpl. split; [done|]. split; [|split].
    + by rewrite lookup_insert_eq.
    + by rewrite lookup_insert_eq.
    + intros d Hne. rewrite !lookup_insert_ne by done.
      unfold upsert. by destruct (member c (contexts w)).
Qed.

(** C9.  The disappear handler for context [c]: in a state of the program
    where [c] is in the active set, [c] is afterwards in neither the active
    set nor the two maps, the other contexts are as before, and the handler
    returns when [c] had both entries; where [c] is not in the active set
    the handler raises [ValueError] and the store is the one before. *)
Theorem disappear_removes (payload : json) (c : string) (w : World) :
  subscript payload "context" = Ok (JStr c) →
  call_with_payload cls H_onWillDisappear payload w = removeSettings payload w ∧
  (reachable show_sink_info cls w → c ∈ contexts w →
     (let w' := snd (removeSettings payload w) in
      (c ∉ contexts w') ∧ ctxSettings w' !! c = None ∧ ctxInfo w' !! c = None ∧
      (is_Some (ctxSettings w !! c) → is_Some (ctxInfo w !! c) →
         fst (removeSettings payload w) = Ok tt) ∧
      ∀ d, d ≠ c →
           (d ∈ contexts w' ↔ d ∈ contexts w) ∧
           ctxSettings w' !! d = ctxSettings w !! d ∧
           ctxInfo w' !! d = ctxInfo w !! d)) ∧
  (c ∉ contexts w → removeSettings payload w = (Raise ValueError, w)).
Proof.
  intros Hc. split; [done|]. split; [|by apply removeSettings_absent].
  intros Hreach Hin.
  pose proof (reachable_store_inv show_sink_info cls _ w Hreach) as Hinv.
  destruct (removeSettings_present payload c w Hc Hin Hinv) as (H1 & H2 & H3 & H4).
  cbn zeta. rewrite H1, H2, H3, H4, !lookup_delete_eq.
  destruct Hinv as (Hnd & _).
  split; [|split; [done|split; [done|split]]].
  - rewrite remove_first_elem by done. by intros [_ ?].
  - by intros [? ->] [? ->].
  - intros d Hne. rewrite remove_first_elem, !lookup_delete_ne by done.
    split; [|done]. split; [by intros [? _]|by split].
Qed.

(** C3, as the code has it.  In every state of the program a context with
    an info entry is in the active set and has a settings entry, so a
    context with both entries is active.  When every appear and
    settings-received frame delivered so far carried all its fields, the
    converse holds as well: a context is in the active set if and only if
    it has both entries. *)
Theorem active_set_and_entries (w : World) (c : string) :
  (reachable show_sink_info cls w →
     is_Some (ctxInfo w !! c) →
     c ∈ contexts w ∧ is_Some (ctxSettings w !! c)) ∧
  (reachable_by show_sink_info complete_frames cls w →
     (c ∈ contexts w ↔
      is_Some (ctxSettings w !! c) ∧ is_Some (ctxInfo w !! c))).
Proof.
  split.
  - intros Hreach. apply (reachable_store_inv show_sink_info cls _ w Hreach).
  - intros Hreach.
    destruct (reachable_store_full show_sink_info cls w Hreach) as ((_ & Hinfo) & Hfull).
    split.
    + intros Hin. pose proof (Hfull c Hin) as Hi. by destruct (Hinfo c Hi).
    + intros [_ Hi]. by destruct (Hinfo c Hi).
Qed.

(** C4, as the code has it.  A counter has an entry only for a context
    whose refresh has failed in the polling loop, and a tick adds one only
    for a context of the active set; no frame, a disappear frame included,
    changes the map of counters, and a tick never drops an entry. *)
Theorem error_counter_lifetime (w : World) (c : string) :
  (reachable show_sink_info cls w →
     is_Some (errors w !! c) → (c, true) ∈ polled w) ∧
  (∀ loaded, errors (snd (receive cls loaded w)) = errors w) ∧
  (is_Some (errors w !! c) →
     is_Some (errors (tick show_sink_info cls w) !! c)) ∧
  (is_Some (errors (tick show_sink_info cls w) !! c) →
     is_Some (errors w !! c) ∨ c ∈ contexts w).
Proof.
  destruct (for_contexts_entries show_sink_info cls (contexts w) w c)
    as (H1 & H2 & _).
  split; [apply reachable_errors_polled|]. split; [|split; [exact H1|]].
  - intros loaded. apply (receive_loop_frame cls loaded w).
  - intros H. destruct (H2 H) as [?|[_ ?]]; auto.
Qed.

End Instances.

(** ** The scenarios of the instance store *)

Definition abc_frame : json :=
  appear_frame "ABC123" (JObj [("audioDevice", JStr "Speakers")])
    "com.example.pulse.volup".

(** The plugin after the appear frame for "ABC123". *)
Definition active_world : World :=
  snd (receive PulsePlugin (Some abc_frame) (run (init [speakers]))).

Example appear_then_disappear :
  contexts active_world = ["ABC123"] ∧
  let w := snd (receive PulsePlugin (Some (disappear_frame "ABC123")) active_world) in
  contexts w = [] ∧ ctxSettings w = ∅ ∧ ctxInfo w = ∅ ∧ log w = [] ∧
  log (snd (receive PulsePlugin (Some (disappear_frame "ABC123")) w)) =
    [LogMessageException ValueError].
Proof. vm_compute. repeat split. Qed.

Example appear_twice :
  snd (receive PulsePlugin (Some abc_frame) active_world) = active_world.
Proof. vm_compute. reflexivity. Qed.

Lemma active_world_reachable (accept : option json -> Prop) :
  accept (Some abc_frame) →
  reachable_by no_image accept PulsePlugin active_world.
Proof. intros H. apply reach_receive; [apply reach_run|exact H]. Qed.

Lemma abc_frame_complete : complete_frames (Some abc_frame).
Proof. intros parsed [= <-] _. reflexivity. Qed.

Lemma abc_frame_fields :
  appear_fields abc_frame "ABC123" (JObj [("audioDevice", JStr "Speakers")])
    (JObj [("column", JInt 0); ("row", JInt 0)]) (JStr "Keypad") (JInt 0)
    (JBool false) (JStr "com.example.pulse.volup").
Proof. split; [done|]. split; [done|]. eexists. by repeat split. Qed.

Lemma appear_upserts_witness :
  length (filter (fun x => x = "ABC123")
            (contexts (snd (setSettings abc_frame active_world)))) = 1%nat ∧
  ctxSettings (snd (setSettings abc_frame active_world)) !! "ABC123" =
    Some (JObj [("audioDevice", JStr "Speakers")]).
Proof.
  destruct (appear_upserts no_image PulsePlugin abc_frame "ABC123"
              active_world (active_world_reachable _ I) eq_refl)
    as (_ & _ & Honce & _ & _ & Hfields).
  split; [exact Honce|].
  destruct (Hfields _ _ _ _ _ _ abc_frame_fields) as (_ & Hs & _).
  exact Hs.
Defined.

Lemma disappear_removes_witness :
  ("ABC123" ∉ contexts (snd (removeSettings (disappear_frame "ABC123") active_world))) ∧
  removeSettings (disappear_frame "ABC123") (run (init [speakers])) =
    (Raise ValueError, run (init [speakers])).
Proof.
  split.
  - destruct (disappear_removes no_image PulsePlugin (disappear_frame "ABC123")
                "ABC123" active_world eq_refl) as (_ & H & _).
    apply H.
    + apply active_world_reachable. exact I.
    + apply member_spec. reflexivity.
  - destruct (disappear_removes no_image PulsePlugin (disappear_frame "ABC123")
                "ABC123" (run (init [speakers])) eq_refl) as (_ & _ & H).
    apply H. apply member_false. reflexivity.
Defined.

Lemma active_set_and_entries_witness :
  "ABC123" ∈ contexts active_world ↔
  is_Some (ctxSettings active_world !! "ABC123") ∧
  is_Some (ctxInfo active_world !! "ABC123").
Proof.
  apply (active_set_and_entries no_image PulsePlugin active_world "ABC123").
  apply active_world_reachable. exact abc_frame_complete.
Defined.

(** An appear frame as a key inside a multi-action gets it: no coordinates
    and no state. *)
Definition partial_appear_frame : json :=
  JObj [("event", JStr "willAppear"); ("context", JStr "ABC123");
        ("action", JStr "com.example.pulse.volup");
        ("payload",
         JObj [("settings", JObj [("audioDevice", JStr "Speakers")]);
               ("controller", JStr "Keypad");
               ("isInMultiAction", JBool true)])].

Definition partial_world : World :=
  snd (receive PulsePlugin (Some partial_appear_frame) (run (init [speakers]))).

Example partial_world_store :
  contexts partial_world = ["ABC123"] ∧
  ctxSettings partial_world !! "ABC123" = Some (JObj [("audioDevice", JStr "Speakers")]) ∧
  ctxInfo partial_world !! "ABC123" = None ∧
  log partial_world = [LogMessageException KeyError].
Proof. vm_compute. repeat split. Qed.

(** C3 as stated fails: after the appear frame above, "ABC123" is in the
    active set and has no info entry. *)
Lemma active_iff_entries_fails :
  ¬ ∀ w c, reachable no_image PulsePlugin w →
           (c ∈ contexts w ↔
            is_Some (ctxSettings w !! c) ∧ is_Some (ctxInfo w !! c)).
Proof.
  intros H.
  assert (reachable no_image PulsePlugin partial_world) as Hr.
  { apply reach_receive; [apply reach_run|exact I]. }
  destruct (H partial_world "ABC123" Hr) as [Hin _].
  destruct Hin as [_ [x Hx]]; [apply member_spec; reflexivity|].
  vm_compute in Hx. discriminate Hx.
Qed.

(** C8 as stated fails for an appear frame that lacks a field the handler
    reads: the frame above is dispatched to the appear handler, which
    raises on the missing coordinates, and "ABC123" has no info entry
    afterwards. *)
Lemma appear_incomplete_has_no_info :
  ¬ ∀ w payload c,
      reachable no_image PulsePlugin w →
      dispatched (Some payload) = Some H_onWillAppear →
      subscript payload "context" = Ok (JStr c) →
      let w' := snd (call_with_payload PulsePlugin H_onWillAppear payload w) in
      is_Some (ctxSettings w' !! c) ∧ is_Some (ctxInfo w' !! c).
Proof.
  intros H.
  destruct (H (run (init [speakers])) partial_appear_frame "ABC123"
              (reach_run _ _ _ _) eq_refl eq_refl) as [_ [x Hx]].
  vm_compute in Hx. discriminate Hx.
Qed.

(** For a context that is active, such a frame replaces the settings and
    leaves the info that was there: the action the info names is no longer
    the action of the last appear frame. *)
Example appear_incomplete_keeps_old_info :
  let w := snd (receive PulsePlugin
                  (Some (appear_frame "ABC123" (JObj []) "com.example.pulse.mute"))
                  (run (init [speakers]))) in
  call_with_payload PulsePlugin H_onWillAppear partial_appear_frame w =
    (Raise KeyError,
     set_ctxSettings
       (<["ABC123" := JObj [("audioDevice", JStr "Speakers")]]> (ctxSettings w)) w) ∧
  contexts w = ["ABC123"] ∧
  ctxInfo w !! "ABC123" ≫= (fun i => obj_get "action" match i with JObj f => f | _ => [] end) =
    Some (JStr "com.example.pulse.mute").
Proof. vm_compute. repeat split. Qed.

(** The failing plugin after one tick, then the disappear frame of "X1". *)
Definition removed_world : World :=
  snd (receive PulsePlugin (Some (disappear_frame "X1"))
         (tick no_image PulsePlugin failing_world)).

Lemma removed_world_reachable : reachable no_image PulsePlugin removed_world.
Proof.
  apply reach_receive; [|exact I]. apply reach_tick; [|reflexivity].
  apply reach_receive; [apply reach_run|exact I].
Qed.

(** C4 as stated fails: the counter of "X1" is still there when "X1" has
    left the active set and both maps. *)
Lemma error_counter_outlives_removal :
  ¬ ∀ w c, reachable no_image PulsePlugin w →
           is_Some (errors w !! c) → c ∈ contexts w.
Proof.
  intros H.
  assert ("X1" ∈ contexts removed_world) as Hin.
  { apply (H removed_world "X1" removed_world_reachable).
    exists 1. vm_compute. reflexivity. }
  apply member_spec in Hin. vm_compute in Hin. discriminate Hin.
Qed.

Example removed_world_store :
  contexts removed_world = [] ∧ ctxSettings removed_world = ∅ ∧
  ctxInfo removed_world = ∅ ∧ errors removed_world !! "X1" = Some 1.
Proof. vm_compute. repeat split. Qed.

Lemma error_counter_lifetime_witness :
  ("X1", true) ∈ polled removed_world.
Proof.
  destruct (error_counter_lifetime no_image PulsePlugin removed_world "X1")
    as (H & _).
  apply H; [exact removed_world_reachable|].
  exists 1. vm_compute. reflexivity.
Defined.

(** ** The event router *)

(** [event[0].upper() + event[1:]] when there is a first character. *)
Definition capitalize (e : string) : string :=
  match e with
  | EmptyString => EmptyString
  | String c rest => String (upper c) rest
  end.

Definition handler_key (e : string) : string := "on" +:+ capitalize e.

(** The router in the words of the specification: the key is looked up in
    the fixed table, the system-wakeup handler is called with no argument,
    any other handler with the frame, and a key without handler is logged. *)
Definition table_route (cls : plugin_class) (e : string) (parsed : json)
    : M unit :=
  match handler_table (handler_key e) with
  | Some H_onSystemDidWakeUp => call_without_payload H_onSystemDidWakeUp
  | Some h => call_with_payload cls h parsed
  | None => logging_no_handler
  end.

(** The event name starts with an ASCII character. *)
Definition starts_ascii (e : string) : Prop :=
  match e with
  | EmptyString => False
  | String c _ => (nat_of_ascii c < 128)%nat
  end.

Lemma upper_underscore (c : ascii) : upper c = "_"%char → c = "_"%char.
Proof.
  destruct c as [[] [] [] [] [] [] [] []]; vm_compute; intros H;
    first [reflexivity|discriminate H].
Qed.

Lemma upper_S (c : ascii) : upper c = "S"%char → c = "s"%char ∨ c = "S"%char.
Proof.
  destruct c as [[] [] [] [] [] [] [] []]; vm_compute; intros H;
    first [by left|by right|discriminate H].
Qed.

Lemma handler_key_on_loop (e : string) : handler_key e = "on_loop" → e = "_loop".
Proof.
  unfold handler_key. destruct e as [|c rest]; simpl; [discriminate|].
  intros [= Hc ->]. by rewrite (upper_underscore c).
Qed.

Lemma handler_key_wakeup (e : string) :
  handler_key e = "onSystemDidWakeUp" →
  e = "systemDidWakeUp" ∨ e = "SystemDidWakeUp".
Proof.
  unfold handler_key. destruct e as [|c rest]; simpl; [discriminate|].
  intros [= Hc ->]. destruct (upper_S c) as [->| ->]; auto.
Qed.

Lemma assoc_snoc {A} (k k' : string) (v : A) (l : list (string * A)) :
  k ≠ k' → assoc k (l ++ [(k', v)]) = assoc k l.
Proof.
  intros Hne. induction l as [|[x y] l IH]; simpl.
  - by destruct (String.eqb_spec k k').
  - by rewrite IH.
Qed.

Lemma getattr_table (k : string) : k ≠ "on_loop" → getattr k = handler_table k.
Proof. intros Hne. unfold getattr, handler_table. by apply assoc_snoc. Qed.

Lemma assoc_Some_In {A} (k : string) (v : A) (l : list (string * A)) :
  assoc k l = Some v → In (k, v) l.
Proof.
  induction l as [|[x y] l IH]; simpl; [discriminate|].
  destruct (String.eqb_spec k x) as [->|Hne].
  - intros [= ->]. by left.
  - intros H. right. by apply IH.
Qed.

Lemma table_wakeup (k : string) :
  handler_table k = Some H_onSystemDidWakeUp → k = "onSystemDidWakeUp".
Proof.
  intros H. apply assoc_Some_In in H. unfold event_handlers in H. simpl in H.
  repeat (destruct H as [H|H]; [by inversion H|]). done.
Qed.

(** C5, as the code has it.  For a decoded mapping whose event is a string
    [e] that starts with an ASCII character and is neither "_loop" nor
    "SystemDidWakeUp": the handler name is "on" + upper(e[0]) + e[1:], it
    resolves to what the table of event handlers holds under that name, and
    the router does what the table says: the system-wakeup handler is
    called with no argument, any other handler with the frame, and a name
    without handler is logged, nothing else.  An event that starts outside
    ASCII is left out: Python's [upper] turns some such characters into
    ASCII letters (U+017F into [S]), and the name then is one of a handler,
    the wakeup handler with a frame among them. *)
Theorem route_by_handler_key (cls : plugin_class) (e : string)
    (fields : list (string * json)) (w : World) :
  obj_get "event" fields = Some (JStr e) →
  starts_ascii e → e ≠ "_loop" → e ≠ "SystemDidWakeUp" →
  method_name (JStr e) = Ok (Name (handler_key e)) ∧
  resolve (Name (handler_key e)) = handler_table (handler_key e) ∧
  route cls (JObj fields) w = table_route cls e (JObj fields) w ∧
  (e = "systemDidWakeUp" → route cls (JObj fields) w = (Ok tt, w)) ∧
  (handler_table (handler_key e) = None →
     route cls (JObj fields) w = (Ok tt, set_log (log w ++ [LogNoHandler]) w)).
Proof.
  intros He Hascii Hloop Hwake.
  assert (method_name (JStr e) = Ok (Name (handler_key e))) as Hname.
  { destruct e; [destruct Hascii|reflexivity]. }
  assert (resolve (Name (handler_key e)) = handler_table (handler_key e)) as Hres.
  { simpl. apply getattr_table. intros H. by apply Hloop, handler_key_on_loop. }
  assert (route cls (JObj fields) w = table_route cls e (JObj fields) w) as Hroute.
  { unfold route, table_route, bind, lift. rewrite He.
    cbn [default from_option id]. rewrite Hname, Hres.
    change (is_str "systemDidWakeUp" (JStr e)) with (String.eqb e "systemDidWakeUp").
    destruct (String.eqb_spec e "systemDidWakeUp") as [->|Hother]; [done|].
    destruct (handler_table (handler_key e)) as [h|] eqn:Eh; [|done].
    destruct h; try reflexivity.
    apply table_wakeup, handler_key_wakeup in Eh. by destruct Eh. }
  split; [exact Hname|]. split; [exact Hres|]. split; [exact Hroute|]. split.
  - intros ->. rewrite Hroute. reflexivity.
  - intros Hnone. rewrite Hroute. unfold table_route. rewrite Hnone.
    reflexivity.
Qed.

Lemma route_by_handler_key_witness :
  route PulsePlugin (disappear_frame "ABC123") active_world =
    table_route PulsePlugin "willDisappear" (disappear_frame "ABC123") active_world.
Proof.
  apply (route_by_handler_key PulsePlugin "willDisappear"
           [("event", JStr "willDisappear"); ("context", JStr "ABC123")]
           active_world); [reflexivity|vm_compute; lia|discriminate..].
Defined.

(** C5 as stated fails at the event "_loop": its name is no event handler,
    and the router calls the refresh hook with the frame instead of logging
    that there is no handler. *)
Lemma route_reaches_on_loop :
  handler_table (handler_key "_loop") = None ∧
  route PulsePlugin (JObj [("event", JStr "_loop")]) (init []) =
    (Raise TypeError, init []) ∧
  route PulsePlugin (JObj [("event", JStr "_loop")]) (init []) ≠
    table_route PulsePlugin "_loop" (JObj [("event", JStr "_loop")]) (init []).
Proof. split; [reflexivity|]. split; [reflexivity|]. vm_compute. discriminate. Qed.

(** The capitalized event name reaches the wakeup handler with an argument
    it does not take. *)
Example capital_wakeup_raises :
  route PulsePlugin (JObj [("event", JStr "SystemDidWakeUp")]) (init []) =
    (Raise TypeError, init []).
Proof. reflexivity. Qed.

Example key_down_is_dispatched :
  dispatched (Some (JObj [("event", JStr "keyDown")])) = Some H_onKeyDown.
Proof. reflexivity. Qed.

(** ** The message-receive operation *)

Section Receive.

Variable json_loads : string -> option json.
Variable on_message_handler : option (string -> M unit).

(** Without a raw handler, [on_message] is [receive] on what [json.loads]
    returns. *)
Lemma on_message_receive (cls : plugin_class) (msg : string) (w : World) :
  on_message json_loads None cls msg w = receive cls (json_loads msg) w.
Proof. reflexivity. Qed.

(** C6.  [on_message] returns, whatever the frame and whatever a handler
    does.  A frame that does not decode, decodes to something that is not
    a mapping, has no event, or has an event whose name no attribute
    answers to, is dispatched to no handler; and when no handler is
    called, the raw one included, the store differs by the log alone: the
    active set, the settings and the info are those before. *)
Theorem on_message_returns_normally (cls : plugin_class) (msg : string)
    (w : World) :
  fst (on_message json_loads on_message_handler cls msg w) = Ok tt ∧
  ((json_loads msg = None ∨
    (∃ v, json_loads msg = Some v ∧ ∀ f, v ≠ JObj f) ∨
    (∃ f, json_loads msg = Some (JObj f) ∧ obj_get "event" f = None) ∨
    (∃ f e, json_loads msg = Some (JObj f) ∧ obj_get "event" f = Some (JStr e) ∧
            getattr (handler_key e) = None)) →
   dispatched (json_loads msg) = None) ∧
  (on_message_handler = None → dispatched (json_loads msg) = None →
   let w' := snd (on_message json_loads on_message_handler cls msg w) in
   only_logged w w' ∧ contexts w' = contexts w ∧
   ctxSettings w' = ctxSettings w ∧ ctxInfo w' = ctxInfo w).
Proof.
  split; [|split].
  - unfold on_message, catch_and_log.
    match goal with
    | |- fst (match ?m with _ => _ end) = _ => destruct m as [[[]|e] w']
    end; reflexivity.
  - intros [H|[(v & H & Hv)|[(f & H & He)|(f & e & H & He & Hg)]]];
      rewrite H; simpl; try done.
    + destruct v; try done. by destruct (Hv fields).
    + by rewrite He.
    + rewrite He. simpl. by destruct e.
  - intros -> Hd. rewrite on_message_receive. cbn zeta.
    assert (only_logged w (snd (receive cls (json_loads msg) w))) as Hl.
    { pose proof (receive_route cls (json_loads msg) w) as Hr.
      destruct (json_loads msg) as [parsed|]; [|exact Hr].
      pose proof (route_dispatch cls parsed w) as Hp. rewrite Hd in Hp.
      by apply (only_logged_trans w (snd (route cls parsed w))). }
    split; [done|]. by rewrite Hl.
Qed.

End Receive.

(** A decoder for the two frames of the scenario below. *)
Definition toy_loads (msg : string) : option json :=
  if String.eqb msg "{" then None else Some (JArr []).

Lemma on_message_returns_normally_witness :
  contexts (snd (on_message toy_loads None PulsePlugin "{" active_world)) =
    contexts active_world.
Proof.
  destruct (on_message_returns_normally toy_loads None PulsePlugin "{" active_world)
    as (_ & Hnone & Hsame).
  apply Hsame; [reflexivity|]. apply Hnone. left. reflexivity.
Defined.

(** The scenario of the specification: the frame "{" calls no handler,
    leaves the active set and makes one log entry. *)
Example invalid_frame_is_logged :
  on_message toy_loads None PulsePlugin "{" active_world =
    (Ok tt, set_log [LogMessageException JSONDecodeError] active_world).
Proof. vm_compute. reflexivity. Qed.

(** * Further properties of the runtime and of the domain plugin *)

(** ** setSettings and removeSettings *)

Lemma remove_first_snoc (c : string) (l : list string) :
  c ∉ l → remove_first c (l ++ [c]) = l.
Proof.
  induction l as [|x l IH]; simpl; intros Hc.
  - by rewrite String.eqb_refl.
  - apply not_elem_of_cons in Hc as [Hne Hc].
    destruct (String.eqb_spec c x); [done|]. by rewrite IH.
Qed.

Lemma upsert_member (c : string) (w : World) :
  c ∈ contexts w → upsert c w = w.
Proof. intros H. apply member_spec in H. unfold upsert. by rewrite H. Qed.

(** X1.  [setSettings] on a frame with a string context puts the context
    in the active set before it reads any other field: the context is
    active afterwards whether the call returns or raises, no context
    leaves the active set, a call that raises has not touched the info
    map, and a frame without "payload" raises with the upsert as its only
    effect. *)
Theorem setSettings_registers_first (payload : json) (c : string) (w : World) :
  subscript payload "context" = Ok (JStr c) →
  let w' := snd (setSettings payload w) in
  c ∈ contexts w' ∧
  (∀ d, d ∈ contexts w → d ∈ contexts w') ∧
  (∀ e, fst (setSettings payload w) = Raise e → ctxInfo w' = ctxInfo w) ∧
  (∀ e, subscript payload "payload" = Raise e →
        setSettings payload w = (Raise e, upsert c w)).
Proof.
  intros Hc.
  assert (∀ d, d ∈ contexts w → d ∈ contexts (upsert c w)) as Hkeep.
  { intros d Hd. unfold upsert. destruct (member c (contexts w)); [done|].
    simpl. apply elem_of_app. by left. }
  assert (ctxInfo (upsert c w) = ctxInfo w) as Hinfo.
  { unfold upsert. by destruct (member c (contexts w)). }
  pose proof (upsert_elem c w) as Hin.
  unfold setSettings, payload_context. run_monad. rewrite Hc. simpl.
  split; [|split; [|split]].
  - repeat case_match; simplify_eq; simpl; done.
  - intros d Hd. repeat case_match; simplify_eq; simpl; by apply Hkeep.
  - intros e. repeat case_match; simplify_eq; simpl; try done.
  - intros e He. by rewrite He.
Qed.

Lemma setSettings_registers_first_witness :
  "ABC123" ∈ contexts (snd (setSettings partial_appear_frame (run (init [speakers])))).
Proof.
  destruct (setSettings_registers_first partial_appear_frame "ABC123"
              (run (init [speakers])) eq_refl) as (H & _).
  exact H.
Defined.

(** X2.  Appear, then disappear: for a context that is in neither the
    active set nor the two maps, [setSettings] on a complete frame followed
    by [removeSettings] for the same context returns and gives back the
    store it started from. *)
Theorem appear_disappear_round_trip (payload gone : json) (c : string)
    (s co ct st mu ac : json) (w : World) :
  appear_fields payload c s co ct st mu ac →
  subscript gone "context" = Ok (JStr c) →
  c ∉ contexts w → ctxSettings w !! c = None → ctxInfo w !! c = None →
  removeSettings gone (snd (setSettings payload w)) = (Ok tt, w).
Proof.
  intros Hf Hg Hc Hs Hi.
  rewrite (setSettings_complete payload c s co ct st mu ac w Hf). simpl.
  pose proof Hc as Hm. apply member_false in Hm.
  unfold removeSettings, payload_context, upsert. run_monad.
  rewrite Hg, Hm. simpl.
  assert (member c (contexts w ++ [c]) = true) as ->.
  { apply member_spec, elem_of_app. right. by apply list_elem_of_singleton. }
  simpl. rewrite !lookup_insert_eq. simpl.
  rewrite lookup_insert_eq. simpl.
  rewrite remove_first_snoc, !delete_insert_id by done.
  by destruct w.
Qed.

Lemma appear_disappear_round_trip_witness :
  removeSettings (disappear_frame "ABC123")
    (snd (setSettings abc_frame (run (init [speakers])))) =
  (Ok tt, run (init [speakers])).
Proof.
  apply (appear_disappear_round_trip abc_frame (disappear_frame "ABC123") "ABC123"
           _ _ _ _ _ _ (run (init [speakers])) abc_frame_fields eq_refl).
  - apply member_false. reflexivity.
  - reflexivity.
  - reflexivity.
Defined.

(** X3.  Delivering a complete appear frame a second time changes nothing:
    [setSettings] returns and the store is the one the first delivery
    left. *)
Theorem setSettings_idempotent (payload : json) (c : string)
    (s co ct st mu ac : json) (w : World) :
  appear_fields payload c s co ct st mu ac →
  setSettings payload (snd (setSettings payload w)) =
    (Ok tt, snd (setSettings payload w)).
Proof.
  intros Hf.
  rewrite (setSettings_complete payload c s co ct st mu ac w Hf). cbn [snd].
  set (w1 := set_ctxInfo _ _).
  rewrite (setSettings_complete payload c s co ct st mu ac w1 Hf).
  rewrite (upsert_member c w1) by apply upsert_elem.
  unfold w1. simpl. by rewrite !insert_insert_eq.
Qed.

Lemma setSettings_idempotent_witness :
  setSettings abc_frame (snd (setSettings abc_frame (run (init [speakers])))) =
    (Ok tt, snd (setSettings abc_frame (run (init [speakers])))).
Proof.
  apply (setSettings_idempotent abc_frame "ABC123" _ _ _ _ _ _
           (run (init [speakers])) abc_frame_fields).
Defined.

(** ** More on the polling loop *)

Section LoopBounds.

Variable show_sink_info : Z -> string -> string.
Variable cls : plugin_class.

Lemma for_contexts_bound (l : list string) (w : World) :
  (∀ c, error_count w c < MAX_ERRORS) →
  ∀ c, error_count (for_contexts show_sink_info cls l w) c ≤ MAX_ERRORS.
Proof.
  revert w. induction l as [|x l IH]; intros w Hlt c; simpl.
  - specialize (Hlt c). lia.
  - pose proof (poll_one_outcome show_sink_info cls x w) as Ho.
    destruct (poll_one show_sink_info cls x w) as [w1 stop]; simpl in Ho.
    set (r := raised (fst (on_loop show_sink_info cls x w))) in *.
    destruct Ho.
    assert (∀ d, error_count w1 d ≤ MAX_ERRORS ∧
                 (stop = false → error_count w1 d < MAX_ERRORS)) as Hw1.
    { intros d. pose proof (Hlt d) as Hd. pose proof (Hlt x) as Hx.
      destruct r; simpl in *.
      - rewrite (error_count_insert (errors w) x d (error_count w x + 1) w w1) by done.
        destruct (String.eqb_spec x d) as [->|_]; [|lia].
        split; [unfold MAX_ERRORS in *; lia|].
        intros ->. symmetry in po_stop0. apply Z.leb_gt in po_stop0. lia.
      - unfold error_count in *. rewrite po_errors0. lia. }
    destruct stop; [apply Hw1|].
    apply IH. intros d. by apply Hw1.
Qed.

(** X4.  In every state of the program no counter is above the threshold,
    a counter at the threshold means that the running flag is down, and
    while the flag is up every counter is below the threshold. *)
Theorem counters_bounded (w : World) (c : string) :
  reachable show_sink_info cls w →
  error_count w c ≤ MAX_ERRORS ∧
  (MAX_ERRORS ≤ error_count w c → running w = false) ∧
  (running w = true → error_count w c < MAX_ERRORS).
Proof.
  intros Hreach.
  assert (running w = true → error_count w c < MAX_ERRORS) as Hup.
  { intros Hrun. by apply (reachable_below_threshold show_sink_info cls _ w Hreach). }
  split; [|split; [|exact Hup]].
  - clear Hup. revert c.
    induction Hreach as [server|w e u _ IH|w loaded _ IH _|w Hr IH Hrun|w _ IH|w server _ IH];
      try exact IH.
    + intros c. unfold error_count. simpl. rewrite lookup_empty. simpl.
      unfold MAX_ERRORS. lia.
    + destruct (receive_loop_frame cls loaded w) as (_ & He & _).
      unfold error_count. rewrite He. exact IH.
    + apply for_contexts_bound.
      by apply (reachable_below_threshold show_sink_info cls _ w Hr).
  - intros Hmax. destruct (running w); [|done]. specialize (Hup eq_refl). lia.
Qed.

Lemma for_contexts_stop (l : list string) (w : World) :
  running w = true →
  let w' := for_contexts show_sink_info cls l w in
  (running w' = true → ∀ d, alerts d (sent w') = alerts d (sent w)) ∧
  (running w' = false →
     ∃ c, c ∈ l ∧ MAX_ERRORS ≤ error_count w' c ∧
          last (polled w') = Some (c, true) ∧
          ∀ d, alerts d (sent w') =
                 (alerts d (sent w) + if String.eqb c d then 1 else 0)%nat).
Proof.
  revert w. induction l as [|x l IH]; intros w Hrun; simpl.
  - split; [done|]. congruence.
  - pose proof (poll_one_outcome show_sink_info cls x w) as Ho.
    destruct (poll_one show_sink_info cls x w) as [w1 stop]; simpl in Ho.
    set (r := raised (fst (on_loop show_sink_info cls x w))) in *.
    destruct Ho. destruct stop.
    + split; [congruence|]. intros _. exists x.
      symmetry in po_stop0. apply andb_true_iff in po_stop0 as [Hr Hmax].
      rewrite Hr in *. apply Z.leb_le in Hmax.
      split; [by left|]. split; [|split].
      * rewrite (error_count_insert (errors w) x x (error_count w x + 1) w w1) by done.
        by rewrite String.eqb_refl.
      * rewrite po_polled0. apply last_snoc.
      * intros d. by rewrite po_alerts0.
    + assert (running w1 = true) as Hrun1 by congruence.
      destruct (IH w1 Hrun1) as (Hup & Hdown).
      assert (∀ d, alerts d (sent w1) = alerts d (sent w)) as Hsame.
      { intros d. rewrite po_alerts0. simpl. lia. }
      split.
      * intros H d. by rewrite Hup, Hsame.
      * intros H. destruct (Hdown H) as (c & Hc & Hmax & Hlast & Ha).
        exists c. split; [by right|]. split; [done|]. split; [done|].
        intros d. by rewrite Ha, Hsame.
Qed.

(** X5.  A tick lowers the running flag only through the circuit breaker:
    when the flag is up before a tick and down after it, the tick ended
    with the failed refresh of a context of the active set whose counter
    is at or above the threshold, and sent one [showAlert], for that
    context; a tick that leaves the flag up has sent no [showAlert]. *)
Theorem tick_stops_only_by_breaker (w : World) :
  running w = true →
  let w' := tick show_sink_info cls w in
  (running w' = true → ∀ d, alerts d (sent w') = alerts d (sent w)) ∧
  (running w' = false →
     ∃ c, c ∈ contexts w ∧ MAX_ERRORS ≤ error_count w' c ∧
          last (polled w') = Some (c, true) ∧
          ∀ d, alerts d (sent w') =
                 (alerts d (sent w) + if String.eqb c d then 1 else 0)%nat).
Proof. intros Hrun. by apply for_contexts_stop. Qed.

End LoopBounds.

Lemma counters_bounded_witness :
  error_count (after_ticks 5 failing_world) "X1" ≤ MAX_ERRORS.
Proof.
  apply (counters_bounded no_image PulsePlugin (after_ticks 5 failing_world) "X1").
  repeat (apply reach_tick; [|reflexivity]).
  apply reach_receive; [apply reach_run|exact I].
Defined.

Lemma tick_stops_only_by_breaker_witness :
  ∃ c, c ∈ contexts (after_ticks 4 failing_world) ∧
       MAX_ERRORS ≤ error_count (after_ticks 5 failing_world) c ∧
       last (polled (after_ticks 5 failing_world)) = Some (c, true) ∧
       ∀ d, alerts d (sent (after_ticks 5 failing_world)) =
              (alerts d (sent (after_ticks 4 failing_world)) +
               if String.eqb c d then 1 else 0)%nat.
Proof.
  destruct (tick_stops_only_by_breaker no_image PulsePlugin
              (after_ticks 4 failing_world) eq_refl) as (_ & H).
  apply H. reflexivity.
Defined.

(** X6.  With the base class [SDPlugin], whose [on_loop] passes, a tick
    records one successful refresh per context of the active set and
    changes nothing else, and the loop does not end on its own: while the
    flag is up [image_loop] is still running after any number of turns. *)
Theorem base_plugin_loop (show_sink_info : Z -> string -> string) (w : World) :
  tick show_sink_info SDPlugin w =
    set_polled (polled w ++ map (fun c => (c, false)) (contexts w)) w ∧
  (running w = true →
   ∀ fuel, image_loop show_sink_info SDPlugin fuel w = None).
Proof.
  assert (∀ l u, for_contexts show_sink_info SDPlugin l u =
                 set_polled (polled u ++ map (fun c => (c, false)) l) u) as Hfor.
  { induction l as [|x l IH]; intros u; simpl.
    - rewrite app_nil_r. by destruct u.
    - rewrite IH. simpl. by rewrite <- app_assoc. }
  split; [apply Hfor|].
  intros Hrun fuel. revert w Hrun.
  induction fuel as [|n IH]; intros w Hrun; simpl; rewrite Hrun; [done|].
  apply IH. unfold tick. by rewrite Hfor.
Qed.

Lemma base_plugin_loop_witness :
  image_loop no_image SDPlugin 100 (run (init [])) = None.
Proof.
  destruct (base_plugin_loop no_image (run (init []))) as (_ & H).
  apply H. reflexivity.
Defined.

(** ** Volume and mute (PulsePlugin.set_volume, toggle_mute, onKeyUp) *)





(** Looking a sink up by index after the library wrote into one. *)
Lemma find_write_sink (idx j : Z) (f : PulseSinkInfo → PulseSinkInfo)
    (l : list PulseSinkInfo) :
  (∀ s, index (f s) = index s) →
  find (fun s => index s =? j) (write_sink idx f l) =
    if j =? idx then f <$> find (fun s => index s =? idx) l
    else find (fun s => index s =? j) l.
Proof.
  intros Hf. induction l as [|a l IH]; simpl; [by destruct (j =? idx)|].
  destruct (index a =? idx) eqn:Ea; simpl.
  - rewrite Hf. apply Z.eqb_eq in Ea. rewrite Ea.
    rewrite (Z.eqb_sym idx j). by destruct (j =? idx).
  - destruct (index a =? j) eqn:Ej.
    + apply Z.eqb_eq in Ej. subst j. by rewrite Ea.
    + exact IH.
Qed.

(** Looking it up by name. *)
Lemma find_name_write_sink (name : json) (f : PulseSinkInfo → PulseSinkInfo)
    (l : list PulseSinkInfo) (sk : PulseSinkInfo) :
  (∀ s, description (f s) = description s) →
  find (fun s => is_str (description s) name) l = Some sk →
  find (fun s => index s =? index sk) l = Some sk →
  find (fun s => is_str (description s) name) (write_sink (index sk) f l) =
    Some (f sk).
Proof.
  intros Hf. induction l as [|a l IH]; simpl; [discriminate|].
  destruct (index a =? index sk) eqn:Ea; simpl.
  - intros Hname [= ->]. rewrite Hf.
    destruct (is_str (description sk) name) eqn:En; [reflexivity|].
    apply find_some in Hname as [_ Hname]. congruence.
  - destruct (is_str (description a) name) eqn:En.
    + intros [= ->]. rewrite Z.eqb_refl in Ea. discriminate.
    + exact IH.
Qed.

Lemma write_sink_twice (idx : Z) (f g : PulseSinkInfo → PulseSinkInfo)
    (l : list PulseSinkInfo) :
  (∀ s, index (f s) = index s) →
  write_sink idx g (write_sink idx f l) = write_sink idx (fun s => g (f s)) l.
Proof.
  intros Hf. induction l as [|a l IH]; simpl; [reflexivity|].
  destruct (index a =? idx) eqn:Ea; simpl.
  - by rewrite Hf, Ea.
  - by rewrite Ea, IH.
Qed.

Lemma write_sink_same (idx : Z) (f : PulseSinkInfo → PulseSinkInfo)
    (l : list PulseSinkInfo) (sk : PulseSinkInfo) :
  find (fun s => index s =? idx) l = Some sk → f sk = sk →
  write_sink idx f l = l.
Proof.
  intros Hfind Hf. induction l as [|a l IH]; simpl in *; [reflexivity|].
  destruct (index a =? idx).
  - injection Hfind as ->. by rewrite Hf.
  - by rewrite IH.
Qed.


Definition two_sinks_world : World :=
  set_sinks [speakers; {| index := 3; description := "Headset"; mute := true;
                          volume_percent := 6 |}] active_world.


(** Fifty-five hundredths are written and read back as 55 percent;
    twenty-nine hundredths, the float just below 0.29, read back as 28. *)
Example set_volume_reads_back :
  get_volume 0 (snd (set_volume 0 (NInt 55) two_sinks_world)) = Some 55 ∧
  get_volume 0 (snd (set_volume 0 (NInt 29) two_sinks_world)) = Some 28 ∧
  pulse_calls (snd (set_volume 0 (NInt 29) two_sinks_world)) =
    [VolumeSetAllChans 0 (29 / 100)%float].
Proof. vm_compute. repeat split; reflexivity. Qed.

Example set_volume_overflow :
  set_volume 0 (NInt (10 ^ 400)) two_sinks_world =
    (Raise OverflowError, two_sinks_world).
Proof. vm_compute. reflexivity. Qed.

(** X8.  A key-up for a context that is not set up ends in an alert: when
    the context has no settings or empty ones, or settings without an audio
    device, or a device that names no sink of the list, [onKeyUp] logs one
    error, sends one [showAlert] for the context, returns, and calls
    nothing on the sound server. *)
Theorem onKeyUp_unconfigured (payload : json) (a c : string) (w : World) :
  subscript payload "action" = Ok (JStr a) →
  subscript payload "context" = Ok (JStr c) →
  truthy (default JNull (ctxSettings w !! c)) = false ∨
  (∃ f, ctxSettings w !! c = Some (JObj f) ∧ f ≠ [] ∧
        (truthy (default JNull (obj_get "audioDevice" f)) = false ∨
         get_sink_from_name (default JNull (obj_get "audioDevice" f)) w = None)) →
  ∃ text,
    PulsePlugin_onKeyUp payload w =
      (Ok tt, set_sent (sent w ++ [showAlert_message c])
                (set_log (log w ++ [LogError text]) w)).
Proof.
  intros Ha Hc Hcase.
  unfold PulsePlugin_onKeyUp, payload_context, logger_error, ShowAlert.
  run_monad. rewrite Ha, Hc. simpl.
  destruct Hcase as [Hs|(f & Hf & Hne & Hdev)].
  - rewrite Hs. simpl. by eexists.
  - rewrite Hf. simpl. destruct f as [|p f]; [done|]. cbn [negb].
    set (device := default JNull (obj_get "audioDevice" (p :: f))) in *.
    destruct Hdev as [Hd|Hd].
    + rewrite Hd. simpl. by eexists.
    + destruct (truthy device); simpl; [|by eexists].
      rewrite Hd. by eexists.
Qed.

Lemma onKeyUp_unconfigured_witness :
  ∃ text,
    PulsePlugin_onKeyUp
      (JObj [("event", JStr "keyUp"); ("action", JStr "com.example.pulse.mute");
             ("context", JStr "K9")]) active_world =
      (Ok tt, set_sent (sent active_world ++ [showAlert_message "K9"])
                (set_log (log active_world ++ [LogError text]) active_world)).
Proof.
  apply (onKeyUp_unconfigured _ "com.example.pulse.mute" "K9" active_world);
    [reflexivity|reflexivity|].
  left. reflexivity.
Defined.

(** What a key-up does once its sink [sk] is found, by the last part of
    its action name: "volup" and "voldown" set the volume to the percent
    the sink reports plus or minus 5, "mute" and "showvol" negate the mute
    flag, any other name does nothing.  The library call is recorded and
    its value written into the sink; nothing is sent or logged. *)
Lemma onKeyUp_press (payload : json) (a c : string)
    (f : list (string * json)) (device : json) (sk : PulseSinkInfo) (w : World) :
  subscript payload "action" = Ok (JStr a) →
  subscript payload "context" = Ok (JStr c) →
  ctxSettings w !! c = Some (JObj f) →
  obj_get "audioDevice" f = Some device → truthy device = true →
  get_sink_from_name device w = Some sk →
  get_sink (index sk) w = Some sk →
  let press call g :=
    (Ok tt, set_sinks (write_sink (index sk) g (sinks w))
              (set_pulse_calls (pulse_calls w ++ [call]) w)) in
  let volume z :=
    match volume_value (NInt z) with
    | Ok value => press (VolumeSetAllChans (index sk) value) (with_volume value)
    | Raise e => (Raise e, w)
    end in
  PulsePlugin_onKeyUp payload w =
    if String.eqb (last_segment a) "volup" then volume (volume_percent sk + 5)
    else if String.eqb (last_segment a) "voldown" then volume (volume_percent sk - 5)
    else if (String.eqb (last_segment a) "mute" ||
             String.eqb (last_segment a) "showvol")%bool
    then press (Mute (index sk) (negb (mute sk))) (with_mute (negb (mute sk)))
    else (Ok tt, w).
Proof.
  intros Ha Hc Hf Hd Ht Hsk Hidx. cbn zeta.
  unfold PulsePlugin_onKeyUp, payload_context, set_volume, toggle_mute,
    get_volume, volume_set_all_chans, pulse_mute.
  run_monad. rewrite Ha, Hc. simpl. rewrite Hf. simpl.
  destruct f as [|p f]; [done|]. cbn [negb]. rewrite Hd. simpl.
  rewrite Ht. simpl. rewrite Hsk.
  destruct (String.eqb (last_segment a) "volup").
  { rewrite Hidx. simpl. rewrite Hidx.
    repeat case_match; simplify_eq; reflexivity. }
  destruct (String.eqb (last_segment a) "voldown").
  { rewrite Hidx. simpl. rewrite Hidx.
    repeat case_match; simplify_eq; reflexivity. }
  destruct (String.eqb (last_segment a) "mute"); simpl.
  { rewrite Hidx. by destruct (mute sk). }
  destruct (String.eqb (last_segment a) "showvol"); simpl; [|reflexivity].
  rewrite Hidx. by destruct (mute sk).
Qed.


Definition volup_frame : json :=
  JObj [("event", JStr "keyUp"); ("action", JStr "com.example.pulse.volup");
        ("context", JStr "ABC123")].


(** The second press starts from what the first wrote: from 50 percent two
    presses of "volup" ask for 0.55 and then 0.6, and from 24 percent for
    0.29, which reads back as 28, and then 0.33. *)
Example volup_twice :
  pulse_calls
    (snd (PulsePlugin_onKeyUp volup_frame
            (snd (PulsePlugin_onKeyUp volup_frame active_world)))) =
  [VolumeSetAllChans 0 (55 / 100)%float; VolumeSetAllChans 0 (60 / 100)%float] ∧
  let quiet := set_sinks [{| index := 0; description := "Speakers";
                             mute := false; volume_percent := 24 |}] active_world in
  pulse_calls
    (snd (PulsePlugin_onKeyUp volup_frame
            (snd (PulsePlugin_onKeyUp volup_frame quiet)))) =
  [VolumeSetAllChans 0 (29 / 100)%float; VolumeSetAllChans 0 (33 / 100)%float].
Proof. vm_compute. split; reflexivity. Qed.

(** X10.  A mute key pressed twice puts the sink back: for a context whose
    audio device names a sink of the list, the first "mute" or "showvol"
    key-up leaves the sink with its flag negated, and the second, which
    reads that sink, sends the flag the sink had at first; after the two
    the store is the one before them but for the two calls on the sound
    server. *)
Theorem mute_key_twice (payload : json) (a c : string)
    (f : list (string * json)) (device : json) (sk : PulseSinkInfo) (w : World) :
  subscript payload "action" = Ok (JStr a) →
  subscript payload "context" = Ok (JStr c) →
  ctxSettings w !! c = Some (JObj f) →
  obj_get "audioDevice" f = Some device → truthy device = true →
  get_sink_from_name device w = Some sk →
  get_sink (index sk) w = Some sk →
  last_segment a = "mute" ∨ last_segment a = "showvol" →
  let w1 := snd (PulsePlugin_onKeyUp payload w) in
  get_sink (index sk) w1 = Some (with_mute (negb (mute sk)) sk) ∧
  PulsePlugin_onKeyUp payload w1 =
    (Ok tt,
     set_pulse_calls
       (pulse_calls w ++ [Mute (index sk) (negb (mute sk));
                          Mute (index sk) (mute sk)]) w).
Proof.
  intros Ha Hc Hf Hd Ht Hsk Hidx Hact. cbn zeta.
  assert (String.eqb (last_segment a) "volup" = false ∧
          String.eqb (last_segment a) "voldown" = false ∧
          (String.eqb (last_segment a) "mute" ||
           String.eqb (last_segment a) "showvol")%bool = true) as (E1 & E2 & E3).
  { destruct Hact as [-> | ->]; repeat split; reflexivity. }
  pose proof (onKeyUp_press payload a c f device sk w Ha Hc Hf Hd Ht Hsk Hidx)
    as H1.
  cbn zeta in H1. rewrite E1, E2, E3 in H1. rewrite H1. cbn [snd].
  set (sk1 := with_mute (negb (mute sk)) sk).
  set (w1 := set_sinks _ _).
  assert (get_sink (index sk) w1 = Some sk1) as Hidx1.
  { unfold get_sink, w1. store_simpl.
    rewrite find_write_sink; [|reflexivity]. rewrite Z.eqb_refl.
    unfold get_sink in Hidx. by rewrite Hidx. }
  assert (get_sink_from_name device w1 = Some sk1) as Hsk1.
  { unfold get_sink_from_name, w1. store_simpl.
    by apply find_name_write_sink. }
  split; [exact Hidx1|].
  pose proof (onKeyUp_press payload a c f device sk1 w1 Ha Hc Hf Hd Ht Hsk1 Hidx1)
    as H2.
  cbn zeta in H2. rewrite E1, E2, E3 in H2. rewrite H2.
  unfold w1. store_simpl. f_equal.
  change (index sk1) with (index sk). change (mute sk1) with (negb (mute sk)).
  rewrite negb_involutive.
  rewrite write_sink_twice; [|reflexivity].
  rewrite (write_sink_same (index sk) _ (sinks w) sk);
    [|exact Hidx|by destruct sk].
  rewrite <- app_assoc. by destruct w.
Qed.

Definition mute_frame : json :=
  JObj [("event", JStr "keyUp"); ("action", JStr "com.example.pulse.mute");
        ("context", JStr "ABC123")].

Lemma mute_key_twice_witness :
  get_sink 0 (snd (PulsePlugin_onKeyUp mute_frame active_world)) =
    Some (with_mute true speakers) ∧
  PulsePlugin_onKeyUp mute_frame
    (snd (PulsePlugin_onKeyUp mute_frame active_world)) =
    (Ok tt, set_pulse_calls [Mute 0 true; Mute 0 false] active_world).
Proof.
  apply (mute_key_twice mute_frame "com.example.pulse.mute" "ABC123"
           [("audioDevice", JStr "Speakers")] (JStr "Speakers") speakers
           active_world); try reflexivity.
  left. reflexivity.
Defined.

(** ** The volume display (PulsePlugin.on_loop) *)

(** What [on_loop] reads of the store to decide what to show. *)
Definition same_reads (w u : World) : Prop :=
  ctxSettings u = ctxSettings w ∧ ctxInfo u = ctxInfo w ∧ sinks u = sinks w.

(** The context is a volume display set up for a sink of the list, and
    [name] and [volume] are what its button shows: the nickname, or the
    description of the sink when there is none, and the volume in percent,
    0 when the sink is muted. *)
Inductive shows (c : string) (w : World) (name : string) (volume : Z) : Prop :=
| shows_intro (settings info action device nickname : json) (sink : PulseSinkInfo) :
    ctxSettings w !! c = Some settings → truthy settings = true →
    ctxInfo w !! c = Some info → truthy info = true →
    subscript info "action" = Ok action →
    action_suffix action = Ok "showvol" →
    dict_get settings "audioDevice" = Ok device → truthy device = true →
    get_sink_from_name device w = Some sink →
    dict_get settings "deviceNickname" = Ok nickname →
    display_name nickname sink = Ok name →
    volume = (if mute sink then 0 else volume_percent sink) →
    shows c w name volume.

Lemma shows_same_reads (c : string) (w u : World) (name : string) (volume : Z) :
  same_reads w u → shows c w name volume → shows c u name volume.
Proof.
  intros (Hs & Hi & Hk)
    [settings info action device nickname sink Es Ts Ei Ti Ea Eact Ed Td Ek En Edn Ev].
  apply (shows_intro c u name volume settings info action device nickname sink);
    try done.
  - by rewrite Hs.
  - by rewrite Hi.
  - unfold get_sink_from_name in *. by rewrite Hk.
Qed.

Definition setImage_message (c image : string) : json :=
  JObj [("context", JStr c); ("event", JStr "setImage");
        ("payload", JObj [("image", JStr image); ("state", JNull);
                          ("target", JNull)])].

Section Display.

Variable show_sink_info : Z -> string -> string.

Ltac rewrite_reads :=
  repeat (match goal with
          | H : ?x = _ |- context [?x] => rewrite H
          end; simpl).

Ltac on_loop_quiet :=
  left; eexists; intros u (Hs & Hi & Hk);
  unfold PulsePlugin_on_loop, get_sink_from_name, logger_error; run_monad;
  rewrite ?Hs, ?Hi, ?Hk; rewrite_reads; reflexivity.

(** The three ways a refresh can go. *)
Lemma on_loop_outcomes (c : string) (w : World) :
  (∃ r, ∀ u, same_reads w u →
             PulsePlugin_on_loop show_sink_info c u = (r, u)) ∨
  (∃ text, ∀ u, same_reads w u →
                PulsePlugin_on_loop show_sink_info c u =
                  (Ok tt, set_log (log u ++ [LogError text]) u)) ∨
  (∃ name volume, shows c w name volume).
Proof.
  destruct (ctxSettings w !! c) as [settings|] eqn:Es; [|on_loop_quiet].
  destruct (ctxInfo w !! c) as [info|] eqn:Ei; [|on_loop_quiet].
  destruct (truthy settings) eqn:Ts; [|on_loop_quiet].
  destruct (truthy info) eqn:Ti; [|on_loop_quiet].
  destruct (subscript info "action") as [a|e] eqn:Ea; [|on_loop_quiet].
  destruct (action_suffix a) as [action|e] eqn:Eact; [|on_loop_quiet].
  destruct (String.eqb action "showvol") eqn:Esv; [|on_loop_quiet].
  apply String.eqb_eq in Esv. subst action.
  destruct (dict_get settings "audioDevice") as [device|e] eqn:Ed; [|on_loop_quiet].
  destruct (truthy device) eqn:Td; [|on_loop_quiet].
  destruct (find (fun s => is_str (description s) device) (sinks w))
    as [sk|] eqn:Ek.
  2: { right. left. eexists. intros u (Hs & Hi & Hk).
       unfold PulsePlugin_on_loop, get_sink_from_name, logger_error. run_monad.
       rewrite ?Hs, ?Hi, ?Hk. rewrite_reads. reflexivity. }
  destruct (dict_get settings "deviceNickname") as [nick|e] eqn:En; [|on_loop_quiet].
  destruct (display_name nick sk) as [n|e] eqn:Edn; [|on_loop_quiet].
  right. right. exists n, (if mute sk then 0 else volume_percent sk).
  by econstructor.
Qed.

(** The refresh of a context that shows something. *)
Lemma on_loop_shows (c : string) (w : World) (name : string) (volume : Z) :
  shows c w name volume →
  let w' := snd (PulsePlugin_on_loop show_sink_info c w) in
  fst (PulsePlugin_on_loop show_sink_info c w) = Ok tt ∧
  last_devices w' = <[c := name]> (last_devices w) ∧
  last_volumes w' = <[c := volume]> (last_volumes w) ∧
  log w' = log w ∧ same_reads w w' ∧
  sent w' =
    if bool_decide (default name (last_devices w !! c) = name ∧
                    default volume (last_volumes w !! c) = volume)
    then sent w
    else sent w ++ [setImage_message c (show_sink_info volume name)].
Proof.
  intros [settings info action device nickname sink
            Es Ts Ei Ti Ea Eact Ed Td Ek En Edn ->].
  unfold PulsePlugin_on_loop, SetImage, setImage_message. run_monad.
  rewrite Es, Ei. simpl. rewrite Ts, Ti. simpl. rewrite Ea. simpl.
  rewrite Eact. simpl. rewrite Ed. simpl. rewrite Td. simpl. rewrite Ek.
  rewrite En. simpl. rewrite Edn. simpl.
  set (vol := if mute sink then 0 else volume_percent sink).
  destruct (last_devices w !! c) as [d|] eqn:Ed0;
    destruct (last_volumes w !! c) as [v|] eqn:Ev0; simpl;
    rewrite ?Ed0, ?Ev0, ?lookup_insert_eq; simpl.
  all: repeat case_bool_decide; simpl; rewrite ?lookup_insert_eq, ?Ev0 in *.
  all: repeat match goal with H : _ ∧ _ |- _ => destruct H end; simplify_eq.
  all: try solve [exfalso; intuition congruence].
  all: repeat split; simpl;
    rewrite ?insert_insert_eq; try done;
    try (symmetry; by apply insert_id).
Qed.

(** X11.  What a refresh of a volume display does: for a context that
    shows [name] and [volume], [on_loop] returns, remembers the two as the
    last device and the last volume of the context, and sends one
    [setImage] with the drawn image when a remembered value differs from
    the new one; it sends nothing when both are the remembered ones, and
    nothing either at the first refresh of the context, when nothing is
    remembered yet. *)
Theorem on_loop_display (c : string) (w : World) (name : string) (volume : Z) :
  shows c w name volume →
  let w' := snd (PulsePlugin_on_loop show_sink_info c w) in
  fst (PulsePlugin_on_loop show_sink_info c w) = Ok tt ∧
  last_devices w' = <[c := name]> (last_devices w) ∧
  last_volumes w' = <[c := volume]> (last_volumes w) ∧
  log w' = log w ∧ same_reads w w' ∧
  sent w' =
    if bool_decide (default name (last_devices w !! c) = name ∧
                    default volume (last_volumes w !! c) = volume)
    then sent w
    else sent w ++ [setImage_message c (show_sink_info volume name)].
Proof. apply on_loop_shows. Qed.

Lemma same_reads_refl (w : World) : same_reads w w.
Proof. by repeat split. Qed.

(** X12.  Two refreshes in a row: the second ends as the first did, sends
    nothing, and leaves the remembered device and volume as the first left
    them, whatever the first one did. *)
Theorem on_loop_twice (c : string) (w : World) :
  let w1 := snd (PulsePlugin_on_loop show_sink_info c w) in
  let w2 := snd (PulsePlugin_on_loop show_sink_info c w1) in
  fst (PulsePlugin_on_loop show_sink_info c w1) =
    fst (PulsePlugin_on_loop show_sink_info c w) ∧
  sent w2 = sent w1 ∧ last_devices w2 = last_devices w1 ∧
  last_volumes w2 = last_volumes w1.
Proof.
  cbn zeta.
  destruct (on_loop_outcomes c w) as [(r & H)|[(text & H)|(name & volume & Hs)]].
  - rewrite (H w (same_reads_refl w)). simpl.
    by rewrite (H w (same_reads_refl w)).
  - rewrite (H w (same_reads_refl w)). simpl.
    by rewrite H by (by repeat split).
  - destruct (on_loop_shows c w name volume Hs) as (Hr & Hd & Hv & _ & Hreads & _).
    pose proof (shows_same_reads c w _ name volume Hreads Hs) as Hs1.
    destruct (on_loop_shows c _ name volume Hs1) as (Hr1 & Hd1 & Hv1 & _ & _ & Hsent).
    rewrite Hr, Hr1, Hsent, Hd1, Hv1, Hd, Hv, !lookup_insert_eq, !insert_insert_eq.
    simpl. by rewrite bool_decide_eq_true_2.
Qed.

End Display.

(** A running plugin with one volume display, "V1", for the speakers. *)
Definition display_world : World :=
  snd (receive PulsePlugin
         (Some (appear_frame "V1" (JObj [("audioDevice", JStr "Speakers")])
                  "com.example.pulse.showvol"))
         (run (init [speakers]))).

Lemma display_world_shows : shows "V1" display_world "Speakers" 50.
Proof.
  apply (shows_intro "V1" display_world "Speakers" 50
           (JObj [("audioDevice", JStr "Speakers")])
           (info_record (JObj [("column", JInt 0); ("row", JInt 0)])
              (JStr "Keypad") (JInt 0) (JBool false)
              (JStr "com.example.pulse.showvol"))
           (JStr "com.example.pulse.showvol") (JStr "Speakers") JNull speakers);
    reflexivity.
Qed.

Lemma on_loop_display_witness :
  sent (snd (PulsePlugin_on_loop no_image "V1" display_world)) = sent display_world ∧
  last_volumes (snd (PulsePlugin_on_loop no_image "V1" display_world)) =
    <["V1" := 50]> (last_volumes display_world).
Proof.
  destruct (on_loop_display no_image "V1" display_world "Speakers" 50
              display_world_shows) as (_ & _ & Hv & _ & _ & Hsent).
  split; [|exact Hv]. rewrite Hsent. reflexivity.
Defined.

(** The volume moves to 60 and the sink list is read again: the next
    refresh sends the image. *)
Example changed_volume_is_drawn :
  let w1 := snd (PulsePlugin_on_loop no_image "V1" display_world) in
  let louder := {| index := 0; description := "Speakers"; mute := false;
                   volume_percent := 60 |} in
  sent (snd (PulsePlugin_on_loop no_image "V1" (set_sinks [louder] w1))) =
    [setImage_message "V1" (no_image 60 "Speakers")].
Proof. reflexivity. Qed.


(** ** The settings form (PulsePlugin.get_settings) *)

Definition settings_fields_message (c : string) (fields : list json) : json :=
  JObj [("context", JStr c); ("event", JStr "sendToPropertyInspector");
        ("payload", JObj [("event", JStr "getSettingsFields");
                          ("settingsFields", JArr fields)])].

Definition dropdown_field (value : json) (options : list json) : json :=
  JObj [("type", JStr "dropdown"); ("name", JStr "audioDevice");
        ("label", JStr "Audio Sinks"); ("value", value);
        ("options", JArr options)].

Lemma payload_context_bind {A} (k : string -> M A)
    (fields : list (string * json)) (c : string) (w : World) :
  obj_get "context" fields = Some (JStr c) →
  bind (payload_context (JObj fields)) k w = k c w.
Proof. intros H. unfold payload_context, bind, lift, subscript. by rewrite H. Qed.

(** X13.  [get_settings] for a context reads the sinks of the sound server
    again, gives the context an empty settings entry when it has none and
    leaves every other settings entry, the active set and the info map as
    they are, whether it returns or raises.  When it returns it has sent
    one frame, to the property inspector of the context, whose first field
    is the drop-down of the descriptions of those sinks; when it raises it
    has sent nothing.  For a context without settings and info it returns,
    and the one field it sends has no value. *)
Theorem get_settings_effect (c : string) (w : World) :
  let w' := snd (get_settings c w) in
  let options := map (fun s => JStr (description s)) (pulse_server w) in
  sinks w' = pulse_server w ∧ contexts w' = contexts w ∧
  ctxInfo w' = ctxInfo w ∧
  ctxSettings w' = match ctxSettings w !! c with
                   | Some _ => ctxSettings w
                   | None => <[c := JObj []]> (ctxSettings w)
                   end ∧
  (fst (get_settings c w) = Ok tt →
     ∃ value rest,
       sent w' = sent w ++
         [settings_fields_message c (dropdown_field value options :: rest)]) ∧
  (∀ e, fst (get_settings c w) = Raise e → sent w' = sent w) ∧
  (ctxSettings w !! c = None → ctxInfo w !! c = None →
     fst (get_settings c w) = Ok tt ∧
     sent w' = sent w ++
       [settings_fields_message c [dropdown_field JNull options]]) ∧
  call_with_payload PulsePlugin H_onSendToPlugin
    (JObj [("event", JStr "sendToPlugin"); ("context", JStr c)]) w =
    get_settings c w ∧
  call_with_payload PulsePlugin H_onPropertyInspectorDidAppear
    (JObj [("event", JStr "propertyInspectorDidAppear"); ("context", JStr c)]) w =
    get_settings c w.
Proof.
  cbn zeta.
  split; [|split; [|split; [|split; [|split; [|split; [|split; [|split]]]]]]].
  8: { apply (payload_context_bind get_settings). reflexivity. }
  8: { apply (payload_context_bind get_settings). reflexivity. }
  all: unfold get_settings, refresh, settings_fields_message, dropdown_field;
    run_monad.
  all: destruct (ctxSettings w !! c) as [cur|] eqn:Ec; simpl;
    rewrite ?Ec, ?lookup_insert_eq; simpl.
  all: try (intros Hn Hi; try discriminate Hn; rewrite Hi; simpl; by split).
  all: try (repeat (case_match; simplify_eq; simpl; try done); fail).
  all: try (repeat (case_match; simplify_eq; simpl; try done);
            intros _; by do 2 eexists).
  all: intros e; repeat (case_match; simplify_eq; simpl; try done).
Qed.

Lemma get_settings_effect_witness :
  fst (get_settings "K9" active_world) = Ok tt ∧
  sent (snd (get_settings "K9" active_world)) =
    sent active_world ++
    [settings_fields_message "K9" [dropdown_field JNull [JStr "Speakers"]]].
Proof.
  destruct (get_settings_effect "K9" active_world)
    as (_ & _ & _ & _ & _ & _ & H & _).
  apply H; reflexivity.
Defined.

(** ** The list of sinks *)

Definition sinks_stay (w w' : World) : Prop := sinks w' = sinks w.

#[local] Instance sinks_stay_preorder : PreOrder sinks_stay.
Proof.
  split; [by intros w|]. intros a b c Hab Hbc. unfold sinks_stay in *. congruence.
Qed.

Lemma on_loop_sinks (show_sink_info : Z -> string -> string)
    (cls : plugin_class) (c : string) :
  preserves sinks_stay (on_loop show_sink_info cls c).
Proof.
  destruct cls; [apply preserves_ret; apply _|].
  unfold on_loop, PulsePlugin_on_loop.
  preserves_tac; repeat case_match; done.
Qed.

Lemma for_contexts_sinks (show_sink_info : Z -> string -> string)
    (cls : plugin_class) (l : list string) (w : World) :
  sinks (for_contexts show_sink_info cls l w) = sinks w.
Proof.
  revert w. induction l as [|c l IH]; intros w; simpl; [done|].
  assert (sinks (fst (poll_one show_sink_info cls c w)) = sinks w) as Hone.
  { unfold poll_one. pose proof (on_loop_sinks show_sink_info cls c w) as H.
    destruct (on_loop show_sink_info cls c w) as [[[]|e] w1]; simpl in *; [done|].
    rewrite on_loop_failed_outcome. cbn zeta. by case_match. }
  destruct (poll_one show_sink_info cls c w) as [w1 stop]; simpl in *.
  destruct stop; [done|]. by rewrite IH.
Qed.

Lemma call_sinks (k : plugin_class) (h : handler) (parsed : json) (u : World) :
  k = SDPlugin ∨
  (h ≠ H_onSendToPlugin ∧ h ≠ H_onPropertyInspectorDidAppear ∧ h ≠ H_onKeyUp) →
  sinks (snd (call_with_payload k h parsed u)) = sinks u.
Proof.
  intros Hk.
  assert (preserves sinks_stay (call_with_payload k h parsed)) as Hp; [|apply Hp].
  destruct Hk as [->|(H1 & H2 & H3)].
  - destruct h; unfold_handlers; preserves_tac; unfold upsert;
      repeat case_match; reflexivity.
  - destruct h; try congruence;
      destruct k; unfold_handlers; preserves_tac; unfold upsert;
      repeat case_match; reflexivity.
Qed.

Lemma receive_sinks (k : plugin_class) (loaded : option json) (w : World) :
  k = SDPlugin ∨
  (dispatched loaded ≠ Some H_onSendToPlugin ∧
   dispatched loaded ≠ Some H_onPropertyInspectorDidAppear ∧
   dispatched loaded ≠ Some H_onKeyUp) →
  sinks (snd (receive k loaded w)) = sinks w.
Proof.
  intros Hk. pose proof (receive_route k loaded w) as Hr.
  unfold only_logged in Hr. rewrite Hr. cbn [sinks set_log].
  destruct loaded as [parsed|]; [|reflexivity].
  pose proof (route_dispatch k parsed w) as Hd.
  destruct (dispatched (Some parsed)) as [h|] eqn:Eh.
  - rewrite Hd. case_match; [rewrite call_without_payload_same; reflexivity|].
    apply call_sinks. destruct Hk as [?|(? & ? & ?)]; [left; assumption|right].
    repeat split; congruence.
  - unfold only_logged in Hd. rewrite Hd. reflexivity.
Qed.

(** What the library writes into a sink leaves the indices and the
    descriptions of the list. *)
Definition sinks_named (w w' : World) : Prop :=
  map index (sinks w') = map index (sinks w) ∧
  map description (sinks w') = map description (sinks w).

#[local] Instance sinks_named_preorder : PreOrder sinks_named.
Proof.
  split; [by intros w|].
  intros a b c [H1 H2] [H3 H4]. unfold sinks_named. split; congruence.
Qed.

Lemma write_sink_named (idx : Z) (f : PulseSinkInfo → PulseSinkInfo)
    (l : list PulseSinkInfo) :
  (∀ s, index (f s) = index s) → (∀ s, description (f s) = description s) →
  map index (write_sink idx f l) = map index l ∧
  map description (write_sink idx f l) = map description l.
Proof.
  intros Hi Hd. induction l as [|a l [IH1 IH2]]; simpl; [done|].
  destruct (index a =? idx); simpl; [by rewrite Hi, Hd|by rewrite IH1, IH2].
Qed.

Lemma onKeyUp_named (payload : json) :
  preserves sinks_named (PulsePlugin_onKeyUp payload).
Proof.
  unfold_handlers; preserves_tac; unfold get_volume in *;
    repeat case_match; preserves_tac;
    first [reflexivity | by split | by apply write_sink_named].
Qed.

(** X14.  The list of sinks changes in two ways only: [get_settings] reads
    it anew from the sound server, and a key-up has the library write a
    volume or a mute flag into one of its sinks.  A tick leaves the list as
    it is, and so does every frame that is not dispatched to
    [onSendToPlugin], [onPropertyInspectorDidAppear] or [onKeyUp]; with the
    base class every frame leaves it.  A key-up, whatever it holds and
    however it ends, leaves the indices and the descriptions of the
    sinks. *)
Theorem sinks_change_by_settings_and_keys
    (show_sink_info : Z -> string -> string)
    (cls : plugin_class) (loaded : option json) (payload : json) (w : World) :
  sinks (tick show_sink_info cls w) = sinks w ∧
  (dispatched loaded ≠ Some H_onSendToPlugin →
   dispatched loaded ≠ Some H_onPropertyInspectorDidAppear →
   dispatched loaded ≠ Some H_onKeyUp →
   sinks (snd (receive cls loaded w)) = sinks w) ∧
  sinks (snd (receive SDPlugin loaded w)) = sinks w ∧
  map index (sinks (snd (PulsePlugin_onKeyUp payload w))) = map index (sinks w) ∧
  map description (sinks (snd (PulsePlugin_onKeyUp payload w))) =
    map description (sinks w).
Proof.
  split; [unfold tick; apply for_contexts_sinks|]. split; [|split].
  - intros H1 H2 H3. apply receive_sinks. right. repeat split; assumption.
  - apply receive_sinks. left. reflexivity.
  - apply (onKeyUp_named payload w).
Qed.

Lemma sinks_change_by_settings_and_keys_witness :
  sinks (snd (receive PulsePlugin (Some abc_frame) two_sinks_world)) =
    sinks two_sinks_world.
Proof.
  destruct (sinks_change_by_settings_and_keys no_image PulsePlugin
              (Some abc_frame) JNull two_sinks_world) as (_ & H & _).
  apply H; discriminate.
Defined.

Example key_up_writes_the_sink :
  sinks (snd (receive PulsePlugin (Some volup_frame) two_sinks_world)) ≠
    sinks two_sinks_world.
Proof. vm_compute. discriminate. Qed.

(** ** The handler name *)

Lemma upper_idempotent (c : ascii) : upper (upper c) = upper c.
Proof. destruct c as [[] [] [] [] [] [] [] []]; reflexivity. Qed.

(** X15.  The case of the first letter of an event name plays no part in
    finding the handler: a frame whose event is [e] and a frame whose event
    is [e] with its first letter in upper case are dispatched to the same
    handler, or both to none. *)
Theorem dispatch_ignores_first_case (e : string) (fields fields' : list (string * json)) :
  obj_get "event" fields = Some (JStr e) →
  obj_get "event" fields' = Some (JStr (capitalize e)) →
  dispatched (Some (JObj fields')) = dispatched (Some (JObj fields)).
Proof.
  intros He He'. unfold dispatched. rewrite He, He'. simpl.
  destruct e as [|c rest]; [done|]. simpl. by rewrite upper_idempotent.
Qed.

Lemma dispatch_ignores_first_case_witness :
  dispatched (Some (JObj [("event", JStr "WillAppear")])) =
    dispatched (Some (JObj [("event", JStr "willAppear")])).
Proof.
  apply (dispatch_ignores_first_case "willAppear"); reflexivity.
Defined.

(** X16.  The base class reacts to three events only.  With [SDPlugin], a
    frame that is dispatched to a handler other than [onWillAppear],
    [onDidReceiveSettings] and [onWillDisappear] leaves the whole store but
    the log as it is. *)
Theorem base_class_ignores_other_events (loaded : option json) (h : handler)
    (w : World) :
  dispatched loaded = Some h → store_handler h = false →
  only_logged w (snd (receive SDPlugin loaded w)).
Proof.
  intros Hd Hh.
  apply (only_logged_trans w
           (match loaded with
            | Some parsed => snd (route SDPlugin parsed w)
            | None => w
            end)); [|apply receive_route].
  destruct loaded as [parsed|]; [|apply only_logged_refl].
  pose proof (route_dispatch SDPlugin parsed w) as Hr. rewrite Hd in Hr.
  rewrite Hr. case_match.
  - rewrite call_without_payload_same. apply only_logged_refl.
  - destruct h; try discriminate Hh; apply only_logged_refl.
Qed.

Lemma base_class_ignores_other_events_witness :
  only_logged active_world
    (snd (receive SDPlugin (Some volup_frame) active_world)).
Proof.
  apply (base_class_ignores_other_events (Some volup_frame) H_onKeyUp active_world);
    reflexivity.
Defined.

(** ** Closing the connection *)

(** X17.  [on_close] lowers the running flag and changes nothing else;
    from then on [image_loop] returns at once, without a refresh, and the
    frames that still arrive leave the flag down. *)
Theorem on_close_ends_loop (show_sink_info : Z -> string -> string)
    (cls : plugin_class) (frames : list (option json)) (fuel : nat) (w : World) :
  on_close w = (Ok tt, set_running false w) ∧
  let w' := receive_all cls frames (snd (on_close w)) in
  running w' = false ∧ polled w' = polled w ∧
  image_loop show_sink_info cls fuel w' = Some w'.
Proof.
  split; [reflexivity|]. cbn zeta.
  destruct (receive_all_loop_frame cls frames (snd (on_close w))) as (Hr & _ & Hp).
  split; [exact Hr|]. split; [exact Hp|].
  destruct fuel; cbn [image_loop]; rewrite Hr; reflexivity.
Qed.

(** ** Looking up a sink *)

(** X18.  [get_sink] returns the first sink of the list with the index it
    is given, and [None] exactly when no sink has that index;
    [get_sink_from_name] returns the first sink whose description is the
    name, and [None] for a name that is not a string; [get_volume] is the
    volume of the sink [get_sink] finds. *)
Theorem sink_lookup (idx : Z) (name : json) (w : World) :
  (∀ sk, get_sink idx w = Some sk →
         ∃ before after, sinks w = before ++ sk :: after ∧ index sk = idx ∧
                         ∀ s, s ∈ before → index s ≠ idx) ∧
  (get_sink idx w = None ↔ ∀ s, s ∈ sinks w → index s ≠ idx) ∧
  (∀ sk, get_sink_from_name name w = Some sk →
         ∃ before after, sinks w = before ++ sk :: after ∧
                         name = JStr (description sk) ∧
                         ∀ s, s ∈ before → name ≠ JStr (description s)) ∧
  ((∀ s, name ≠ JStr s) → get_sink_from_name name w = None) ∧
  get_volume idx w = volume_percent <$> get_sink idx w.
Proof.
  assert (∀ (f : PulseSinkInfo → bool) l sk,
            find f l = Some sk →
            ∃ before after, l = before ++ sk :: after ∧ f sk = true ∧
                            ∀ s, s ∈ before → f s = false) as Hfind.
  { intros f l. induction l as [|x l IH]; intros sk; simpl; [discriminate|].
    destruct (f x) eqn:Ex.
    - intros [= ->]. exists [], l. split; [reflexivity|]. split; [exact Ex|].
      intros s Hs. inversion Hs.
    - intros H. destruct (IH sk H) as (b & a & -> & Hsk & Hb).
      exists (x :: b), a. split; [reflexivity|]. split; [exact Hsk|].
      intros s Hs. apply elem_of_cons in Hs as [->|Hs]; [exact Ex|by apply Hb]. }
  assert (∀ s, is_str (description s) name = true ↔ name = JStr (description s))
    as Hstr.
  { intros s. destruct name; simpl; try (split; [discriminate|discriminate]).
    rewrite String.eqb_eq. split; [by intros ->|by intros [= ->]]. }
  split; [|split; [|split; [|split]]].
  - intros sk H. destruct (Hfind _ _ _ H) as (b & a & Hl & Hsk & Hb).
    exists b, a. split; [exact Hl|]. split; [by apply Z.eqb_eq|].
    intros s Hs. apply Z.eqb_neq. by apply Hb.
  - unfold get_sink. split.
    + intros H s Hs. apply list_elem_of_In in Hs.
      apply Z.eqb_neq. by apply (find_none _ _ H).
    + intros H. destruct (find _ _) as [sk|] eqn:E; [|reflexivity].
      apply find_some in E as [Hin Heq]. apply Z.eqb_eq in Heq.
      exfalso. apply (H sk); [by apply list_elem_of_In|exact Heq].
  - intros sk H. destruct (Hfind _ _ _ H) as (b & a & Hl & Hsk & Hb).
    exists b, a. split; [exact Hl|]. split; [by apply Hstr|].
    intros s Hs Heq. apply Hstr in Heq. rewrite (Hb s Hs) in Heq. discriminate.
  - intros Hn. unfold get_sink_from_name.
    destruct (find _ _) as [sk|] eqn:E; [|reflexivity].
    apply find_some in E as [_ Heq]. apply Hstr in Heq. by destruct (Hn _ Heq).
  - unfold get_volume. by destruct (get_sink idx w).
Qed.

Lemma sink_lookup_witness :
  get_sink_from_name (JInt 3) two_sinks_world = None ∧
  get_sink 7 two_sinks_world = None.
Proof.
  destruct (sink_lookup 7 (JInt 3) two_sinks_world) as (_ & Hnone & _ & Hname & _).
  split.
  - apply Hname. discriminate.
  - apply Hnone. intros s Hs. apply list_elem_of_In in Hs.
    destruct Hs as [<-|[<-|[]]]; discriminate.
Defined.
